(** * hetvec: a heterogeneous vector with pairwise traversal

    Shallow embedding of [hetvec.hpp] and [example.cpp].

    The C++ class template [hetvec<T, Ts...>] derives from [hetvec<Ts...>]
    and owns one [std::vector<T> v]; [hetvec<>] is the empty end of the
    chain.  Static types are represented by codes [T : ty] with decidable
    equality (overload resolution compares types for identity) and a
    denotation [den T] for the values of the type.  Handlers of the visitor
    may have side effects, so [perform] is written in state-passing style
    over the visitor's world [St]; it also hands back the collection it ran
    on, as the member functions are not [const].

    The codes [T : ty] stand for the types of elements and of the
    expressions that denote them.  Classes of the [hetvec] family are not
    among them: none of the coded types is, or converts to, a [hetvec]
    class.  An object of class [hetvec<>] passed to a constructor is an
    [argument] of its own kind, see [hetvec_ctor_args]. *)

From Stdlib Require Import List Arith Lia ZArith Bool Permutation.
From Stdlib Require String.
Import ListNotations.

(** ** Machine integers: [size_t]

    [size_t] is an unsigned integer type, 64 bits wide on the usual
    targets; its arithmetic is modulo [2 ^ SIZE_WIDTH]. *)

Definition SIZE_WIDTH : Z := 64.
Definition SIZE_MAX : Z := 2 ^ SIZE_WIDTH - 1.

(** Unsigned addition of two [size_t] values wraps around. *)
Definition size_t_add (a b : Z) : Z := ((a + b) mod 2 ^ SIZE_WIDTH)%Z.

(** ** Static types

    Overload resolution decides whether two static types are the same
    type; [ty_eq_dec] is that decision on the codes of the types. *)
Class EqDec (ty : Type) : Type := {
  ty_eq_dec : forall a b : ty, {a = b} + {a <> b}
}.

(** ** Subscripts of [std::vector<T>]

    [perform] is not [const], so [v[i]] in its body calls the non-const
    [std::vector<T>::operator[]].  For every [T] but [bool] the result is a
    [T&]: the expression [v[i]] has static type [T] and denotes the stored
    element.  [std::vector<bool>] is the packed specialisation, whose
    non-const [operator[]] returns a proxy object of the class
    [std::vector<bool>::reference]: template argument deduction on [v[i]]
    then yields that class and not [bool].  [subscript_ty T] is the static
    type of the expression [v[i]] for a [std::vector<T> v], and
    [subscript T x] the object this expression denotes when the element
    stored at [i] is [x]. *)
Class Subscript {ty : Type} (den : ty -> Type) : Type := {
  subscript_ty : ty -> ty;
  subscript : forall T : ty, den T -> den (subscript_ty T)
}.

(** * The container of [hetvec.hpp] *)

Section Hetvec.
(** Codes of the static types a program declares, and the values of each
    static type. *)
Context {ty : Type} {ty_dec : EqDec ty} {den : ty -> Type}
        {vec_ref : Subscript den}.

(** A value together with its static type. *)
Definition elem : Type := sigT den.
Definition tag (e : elem) : ty := projT1 e.

(** The visitor [Fcns]: overload resolution of [fcns.f(a, b)] on the
    static types [T] and [U] of the arguments picks one handler, which
    acts on the world [St] outside the collection (the methods are
    [const], and the arguments are [const] references). *)
Record Fcns (St : Type) : Type := {
  fcns_f : forall T U : ty, den T -> den U -> St -> St
}.
#[global] Arguments fcns_f {St} _ {T U} _ _ _.

(** [struct hetvec<T, Ts...> : hetvec<Ts...> { std::vector<T> v; ... }] *)
Record hetvec_cons (T : ty) (Base : Type) : Type := {
  v : list (den T);
  base : Base
}.
#[global] Arguments v {T Base} _.
#[global] Arguments base {T Base} _.
#[global] Arguments Build_hetvec_cons {T Base} _ _.

(** [hetvec<>] has no data members. *)
Fixpoint hetvec (Ts : list ty) : Type :=
  match Ts with
  | [] => unit
  | T :: Ts' => hetvec_cons T (hetvec Ts')
  end.

(** *** [hetvec<>::f]

    Two overloads: [f(const T&, const U&, const Fcns&)] calls the handler
    in both argument orders; [f(const T&, const T&, const Fcns&)] is the
    more specialised one, chosen when both arguments have the same static
    type, and calls the handler once. *)
Definition f {St} {T U : ty} (a1 : den T) (a2 : den U)
           (fcns : Fcns St) (s : St) : St :=
  if ty_eq_dec T U
  then fcns_f fcns a1 a2 s
  else fcns_f fcns a2 a1 (fcns_f fcns a1 a2 s).

(** *** [perform(const U& u, const Fcns& fcns)]

    Test the forwarded element against the elements of this level, then
    forward it to the base. *)
Fixpoint perform_u {St} (Ts : list ty)
  : hetvec Ts -> forall U, den U -> Fcns St -> St -> hetvec Ts * St :=
  match Ts with
  | [] => fun this U u fcns s => (this, s)
  | T :: Ts' => fun this U u fcns s =>
      let s1 := fold_left (fun s t => f t u fcns s) (v this) s in
      let (b, s2) := perform_u Ts' (base this) U u fcns s1 in
      ({| v := v this; base := b |}, s2)
  end.

(** [for (size_t i = lo; i < hi; i++) body(i);] *)
Definition for_range {St} (lo hi : nat) (body : nat -> St -> St) (s : St)
  : St :=
  fold_left (fun s i => body i s) (seq lo (hi - lo)) s.

(** The same-type loops of [perform]: [v[i]] against every [v[j]], [j > i].
    Both indices stay below [v.size()], so the reads are in range.  The
    arguments of [hetvec<>::f] are the subscript expressions themselves:
    its template parameters are deduced from the static type of [v[i]],
    which is [subscript_ty T]. *)
Definition same_type_testing {St} {T : ty} (vec : list (den T))
           (fcns : Fcns St) (s : St) : St :=
  for_range 0 (length vec) (fun i =>
    for_range (i + 1) (length vec) (fun j s =>
      match nth_error vec i, nth_error vec j with
      | Some vi, Some vj => f (subscript T vi) (subscript T vj) fcns s
      | _, _ => s
      end)) s.

(** *** [perform(const Fcns& fcns)]

    After the same-type loops, every element of this level is forwarded to
    the base through a lambda with parameter [const T& t]: on this path
    the argument has the declared type [T], for [bool] as well. *)
Fixpoint perform {St} (Ts : list ty)
  : hetvec Ts -> Fcns St -> St -> hetvec Ts * St :=
  match Ts with
  | [] => fun this fcns s => (this, s)
  | T :: Ts' => fun this fcns s =>
      let s1 := same_type_testing (v this) fcns s in
      let (b, s2) :=
        fold_left (fun (st : hetvec Ts' * St) t =>
                     perform_u Ts' (fst st) T t fcns (snd st))
                  (v this) (base this, s1) in
      let (b', s3) := perform Ts' b fcns s2 in
      ({| v := v this; base := b' |}, s3)
  end.

(** *** [size], [clear], [empty] *)
Fixpoint size (Ts : list ty) : hetvec Ts -> Z :=
  match Ts with
  | [] => fun _ => 0%Z
  | T :: Ts' => fun this =>
      size_t_add (Z.of_nat (length (v this))) (size Ts' (base this))
  end.

Fixpoint clear (Ts : list ty) : hetvec Ts -> hetvec Ts :=
  match Ts with
  | [] => fun this => this
  | T :: Ts' => fun this => {| v := []; base := clear Ts' (base this) |}
  end.

(** [empty] is a member of the non-empty specialisation only. *)
Definition empty (T : ty) (Ts : list ty) (this : hetvec (T :: Ts)) : bool :=
  (size (T :: Ts) this =? 0)%Z.

(** *** [push_back]

    The non-template overload [push_back(const T&)] wins when the argument
    has exactly the type of this level; otherwise the template forwards to
    the base.  [hetvec<>] has no [push_back]: a value of an undeclared
    type is rejected when the program is compiled. *)
Definition cast {U T : ty} (e : U = T) (x : den U) : den T :=
  match e in _ = T' return den T' with eq_refl => x end.

Fixpoint push_back (Ts : list ty)
  : hetvec Ts -> forall U, den U -> option (hetvec Ts) :=
  match Ts with
  | [] => fun _ _ _ => None
  | T :: Ts' => fun this U u =>
      match ty_eq_dec U T with
      | left e => Some {| v := v this ++ [cast e u]; base := base this |}
      | right _ =>
          match push_back Ts' (base this) U u with
          | Some b => Some {| v := v this; base := b |}
          | None => None
          end
      end
  end.

(** *** Constructors

    [explicit hetvec()] leaves every vector empty. *)
Fixpoint hetvec_default (Ts : list ty) : hetvec Ts :=
  match Ts with
  | [] => tt
  | T :: Ts' => {| v := []; base := hetvec_default Ts' |}
  end.

(** The variadic constructors of [hetvec<T, Ts...>].  When the first
    argument is a [T], the constructor delegates to the constructor of the
    same class with the remaining arguments and pushes [t] afterwards;
    otherwise all arguments initialise the base.  [base_ctor] stands for
    the constructors of [hetvec<Ts...>]. *)
Fixpoint hetvec_ctor_level (T : ty) (Ts' : list ty)
         (base_ctor : list elem -> option (hetvec Ts'))
         (us : list elem) : option (hetvec (T :: Ts')) :=
  match us with
  | [] => Some (hetvec_default (T :: Ts'))
  | existT _ U u :: rest =>
      match ty_eq_dec U T with
      | left e =>
          match hetvec_ctor_level T Ts' base_ctor rest with
          | Some this => Some {| v := v this ++ [cast e u]; base := base this |}
          | None => None
          end
      | right _ =>
          match base_ctor us with
          | Some b => Some {| v := []; base := b |}
          | None => None
          end
      end
  end.

(** The constructors applied to elements.  [hetvec<>] declares no
    constructor, so it has the implicit ones only: the default constructor,
    which takes no argument, and the copy and move constructors, which
    take one object that converts to [hetvec<>].  An element does not
    convert to [hetvec<>], so elements left over at the end of the chain
    are a compile-time error. *)
Fixpoint hetvec_ctor (Ts : list ty) : list elem -> option (hetvec Ts) :=
  match Ts with
  | [] => fun us => match us with [] => Some tt | _ :: _ => None end
  | T :: Ts' => hetvec_ctor_level T Ts' (hetvec_ctor Ts')
  end.

(** The constructors applied to arguments of which some may be objects
    of class [hetvec<>].  Such an object never is a [T]: the generic
    overloads hand it down with the arguments behind it, and at the end of
    the chain the copy or move constructor of [hetvec<>] takes it when it
    is the only argument left.  [hetvec<>] has no data member, so nothing
    of the object is kept. *)
Inductive argument : Type :=
| Element (e : elem)
| Empty_hetvec.

Fixpoint hetvec_ctor_args_level (T : ty) (Ts' : list ty)
         (base_ctor : list argument -> option (hetvec Ts'))
         (us : list argument) : option (hetvec (T :: Ts')) :=
  let to_base :=
    match base_ctor us with
    | Some b => Some {| v := []; base := b |}
    | None => None
    end in
  match us with
  | [] => Some (hetvec_default (T :: Ts'))
  | Element (existT _ U u) :: rest =>
      match ty_eq_dec U T with
      | left e =>
          match hetvec_ctor_args_level T Ts' base_ctor rest with
          | Some this => Some {| v := v this ++ [cast e u]; base := base this |}
          | None => None
          end
      | right _ => to_base
      end
  | Empty_hetvec :: _ => to_base
  end.

Fixpoint hetvec_ctor_args (Ts : list ty)
  : list argument -> option (hetvec Ts) :=
  match Ts with
  | [] => fun us =>
      match us with
      | [] => Some tt
      | [Empty_hetvec] => Some tt
      | _ => None
      end
  | T :: Ts' => hetvec_ctor_args_level T Ts' (hetvec_ctor_args Ts')
  end.

(** The elements among the arguments of a constructor call. *)
Fixpoint argument_elements (us : list argument) : list elem :=
  match us with
  | [] => []
  | Element e :: us' => e :: argument_elements us'
  | Empty_hetvec :: us' => argument_elements us'
  end.

(** A sequence of statements [hv.push_back(e1); ...; hv.push_back(ek);]. *)
Fixpoint push_back_all (Ts : list ty) (hv : hetvec Ts) (es : list elem)
  : option (hetvec Ts) :=
  match es with
  | [] => Some hv
  | existT _ U u :: es' =>
      match push_back Ts hv U u with
      | Some hv' => push_back_all Ts hv' es'
      | None => None
      end
  end.

(** ** Observing a collection and a traversal *)

(** The contents of the partitions, in declared order, each element with
    its static type. *)
Definition tagged (T : ty) (vec : list (den T)) : list elem :=
  map (existT den T) vec.

Fixpoint parts (Ts : list ty) : hetvec Ts -> list (list elem) :=
  match Ts with
  | [] => fun _ => []
  | T :: Ts' => fun this => tagged T (v this) :: parts Ts' (base this)
  end.

(** Partition number [i] (counted from 0 in declared order). *)
Definition part (Ts : list ty) (hv : hetvec Ts) (i : nat) : list elem :=
  nth i (parts Ts hv) [].

(** One invocation [fcns.f(a, b)]: the two arguments with their types. *)
Abbreviation call := (elem * elem)%type (only parsing).

Definition swap (c : call) : call := (snd c, fst c).

(** Does [c] go to the handler for the type pair [(A, B)]? *)
Definition typed (A B : ty) (c : call) : bool :=
  (if ty_eq_dec (tag (fst c)) A then true else false)
  && (if ty_eq_dec (tag (snd c)) B then true else false).

Definition tag_is (A : ty) (e : elem) : bool :=
  if ty_eq_dec (tag e) A then true else false.

(** The visitor that does nothing but append each invocation to a log. *)
Definition recorder : Fcns (list call) :=
  {| fcns_f := fun T U a b log => log ++ [(existT den T a, existT den U b)] |}.

(** The sequence of handler invocations of one traversal. *)
Definition invocations (Ts : list ty) (hv : hetvec Ts) : list call :=
  snd (perform Ts hv recorder []).

(** What a visitor does on one recorded invocation, and on one call of
    [hetvec<>::f]. *)
Definition apply_call {St} (fcns : Fcns St) (s : St) (c : call) : St :=
  fcns_f fcns (projT2 (fst c)) (projT2 (snd c)) s.

Definition apply_f {St} (fcns : Fcns St) (s : St) (p : call) : St :=
  f (projT2 (fst p)) (projT2 (snd p)) fcns s.

(** *** The pairs a traversal visits, as plain lists *)

(** [(l[i], l[j])] for [i < j], in the order of the two nested loops. *)
Fixpoint ordered_pairs {A : Type} (l : list A) : list (A * A) :=
  match l with
  | [] => []
  | a :: l' => map (pair a) l' ++ ordered_pairs l'
  end.

(** A forwarded element [u] against the later partitions [ps]. *)
Definition cross_with (ps : list (list elem)) (u : elem) : list call :=
  flat_map (fun p => map (fun t => (t, u)) p) ps.

(** The subscript expression [v[i]] for a stored element, with its static
    type. *)
Definition subscripted (e : elem) : elem :=
  existT den (subscript_ty (tag e)) (subscript (tag e) (projT2 e)).

(** All argument pairs handed to [hetvec<>::f], in order: at each level
    the subscript expressions of the same-type loops, then the elements
    forwarded to the base. *)
Fixpoint pairings (ps : list (list elem)) : list call :=
  match ps with
  | [] => []
  | p :: ps' =>
      ordered_pairs (map subscripted p)
      ++ flat_map (cross_with ps') p ++ pairings ps'
  end.

(** The handler invocations one call of [hetvec<>::f] makes. *)
Definition expand (p : call) : list call :=
  if ty_eq_dec (tag (fst p)) (tag (snd p)) then [p] else [p; swap p].

(** ** Notions used to state the properties *)

(** Partition [k] holds values of the [k]-th declared type only. *)
Definition well_tagged (Ts : list ty) (ps : list (list elem)) : Prop :=
  Forall2 (fun T p => forall e, In e p -> tag e = T) Ts ps.

(** One forwarded element [t] against elements [L] of other types. *)
Definition other_types (t : elem) (L : list elem) : Prop :=
  forall w, In w L -> tag w <> tag t.

(** [C(n, 2)], the number of two-element subsets of [n] elements. *)
Definition choose2 (n : nat) : nat := n * (n - 1) / 2.

(** [A] is declared before [B] in the type list. *)
Definition declared_before (Ts : list ty) (A B : ty) : Prop :=
  exists i j, i < j /\ nth_error Ts i = Some A /\ nth_error Ts j = Some B.

(** A call of [hetvec<>::f] gets either two elements of one type, or
    first an element of a later declared type and then the forwarded
    element of an earlier declared type. *)
Definition later_first (Ts : list ty) (q : elem * elem) : Prop :=
  declared_before Ts (tag (snd q)) (tag (fst q)).

(** A visitor instrumented to log each invocation before running the
    handler. *)
Definition logging {St} (fcns : Fcns St) : Fcns (St * list (elem * elem)) :=
  {| fcns_f := fun T U a b st =>
       (fcns_f fcns a b (fst st),
        snd st ++ [(existT den T a, existT den U b)]) |}.

Definition observed_calls {St} (Ts : list ty) (hv : hetvec Ts)
           (fcns : Fcns St) (s : St) : list (elem * elem) :=
  snd (snd (perform Ts hv (logging fcns) (s, []))).

(** All stored elements, partition after partition in declared order. *)
Definition elements (Ts : list ty) (hv : hetvec Ts) : list elem :=
  concat (parts Ts hv).

(** Do the two arguments of an invocation have different static types? *)
Definition cross_typed (c : elem * elem) : bool :=
  if ty_eq_dec (tag (fst c)) (tag (snd c)) then false else true.

(** The sum over every partition of its element count. *)
Definition count (Ts : list ty) (hv : hetvec Ts) : nat :=
  list_sum (map (@length elem) (parts Ts hv)).

(** The subscript of a [std::vector<T>] is the stored element itself, at
    type [T]: so it is for every [T] but [bool]. *)
Definition plain_subscript (T : ty) : Prop :=
  subscript_ty T = T
  /\ forall x : den T, subscripted (existT den T x) = existT den T x.

(** The invocations a traversal makes for two stored elements: one on the
    two subscript expressions when both are of one type, otherwise one in
    each argument order on the elements themselves. *)
Definition calls_between (e u : elem) : list call :=
  if ty_eq_dec (tag e) (tag u)
  then [(subscripted e, subscripted u)]
  else [(e, u); (u, e)].

End Hetvec.

Arguments elem {ty} den.
Arguments Fcns {ty} den St.
Arguments hetvec_cons {ty} den T Base.
Arguments hetvec {ty} den Ts.
Arguments hetvec_default {ty} den Ts.
Arguments recorder {ty} den.
Arguments argument {ty} den.
Arguments Element {ty den} e.
Arguments Empty_hetvec {ty den}.

(** * The program of [example.cpp] *)

Import String.StringSyntax.
Abbreviation string := String.string.

(** [struct Dog{}; struct Car{}; struct Foo{}; struct Bar{};] *)
Inductive type_name : Type := Dog | Car | Foo | Bar.

Definition type_name_eq_dec (a b : type_name) : {a = b} + {a <> b}.
Proof. decide equality. Defined.

#[export] Instance type_name_EqDec : EqDec type_name :=
  {| ty_eq_dec := type_name_eq_dec |}.

(** The four structs are empty: each type has one value. *)
Definition object (T : type_name) : Type := unit.

(** None of the four is [bool]: a subscript is the element itself. *)
#[export] Instance type_name_Subscript : Subscript object :=
  {| subscript_ty := fun T => T; subscript := fun T x => x |}.

(** [hetvec<Dog, Car, Foo, Bar>] *)
Definition Types : list type_name := [Dog; Car; Foo; Bar].

Definition nl : string :=
  String.String (Ascii.ascii_of_nat 10) String.EmptyString.

Definition two_dogs : string := String.append "Two dogs are barking!" nl.
Definition car_hit_dog : string := String.append "A car hit the dog, oh no!" nl.
Definition foobar : string := String.append "Foobar!" nl.
Definition hv_is_empty : string := String.append "hv is empty!" nl.

(** [MyCustomBehaviour]: three exact handlers, each with one [printf], and
    the generic [f] with an empty body.  The world is the list of strings
    printed so far. *)
Definition MyCustomBehaviour : Fcns object (list string) :=
  {| fcns_f := fun T U _ _ out =>
       match T, U with
       | Dog, Dog => out ++ [two_dogs]
       | Dog, Car => out ++ [car_hit_dog]
       | Bar, Foo => out ++ [foobar]
       | _, _ => out
       end |}.

(** Is there a handler written for exactly this pair of types? *)
Definition has_exact_handler (T U : type_name) : bool :=
  match T, U with
  | Dog, Dog | Dog, Car | Bar, Foo => true
  | _, _ => false
  end.

(** [hetvec<Dog, Car, Foo, Bar> hv {Dog(), Dog(), Car(), Bar()};
    hv.push_back(Foo());] *)
Definition main_hv : option (hetvec object Types) :=
  match hetvec_ctor Types
          [existT object Dog tt; existT object Dog tt;
           existT object Car tt; existT object Bar tt] with
  | Some hv => push_back Types hv Foo tt
  | None => None
  end.

(** [main]: what the program prints. *)
Definition main : option (list string) :=
  match main_hv with
  | Some hv =>
      let (hv, out) :=
        perform Types hv MyCustomBehaviour [] in
      let hv := clear Types hv in
      let out :=
        if empty Dog [Car; Foo; Bar] hv
        then out ++ [hv_is_empty] else out in
      let (hv, out) :=
        perform Types hv MyCustomBehaviour out in
      Some out
  | None => None
  end.

(** The collection of [main] just before the first traversal. *)
Definition example_hv : hetvec object Types :=
  {| v := [tt; tt];
     base := {| v := [tt];
                base := {| v := [tt];
                           base := {| v := [tt]; base := tt |} |} |} |}.

(** * A collection of scalars: [hetvec<int, bool>] *)

(** The types [int] and [bool], and the class
    [std::vector<bool>::reference] of the proxy objects that the
    subscripts of a [std::vector<bool>] are. *)
Inductive scalar : Type := Int | Bool | Bool_reference.

Definition scalar_eq_dec (a b : scalar) : {a = b} + {a <> b}.
Proof. decide equality. Defined.

#[export] Instance scalar_EqDec : EqDec scalar :=
  {| ty_eq_dec := scalar_eq_dec |}.

(** A proxy is told by the value of the bit it refers to. *)
Definition scalar_value (T : scalar) : Type :=
  match T with
  | Int => Z
  | Bool => bool
  | Bool_reference => bool
  end.

Definition scalar_subscript_ty (T : scalar) : scalar :=
  match T with
  | Bool => Bool_reference
  | _ => T
  end.

Definition scalar_subscript (T : scalar)
  : scalar_value T -> scalar_value (scalar_subscript_ty T) :=
  match T with
  | Int => fun n => n
  | Bool => fun b => b
  | Bool_reference => fun r => r
  end.

#[export] Instance scalar_Subscript : Subscript scalar_value :=
  {| subscript_ty := scalar_subscript_ty; subscript := scalar_subscript |}.

Definition int_ (n : Z) : elem scalar_value := existT scalar_value Int n.
Definition bool_ (b : bool) : elem scalar_value := existT scalar_value Bool b.
Definition bool_reference_ (b : bool) : elem scalar_value :=
  existT scalar_value Bool_reference b.

(** A visitor with a handler [f(const bool&, const bool&)], which counts
    its invocations, and the generic [f] with an empty body. *)
Definition count_bool_pairs : Fcns scalar_value nat :=
  {| fcns_f := fun T U _ _ n =>
       match T, U with
       | Bool, Bool => S n
       | _, _ => n
       end |}.

(** [hetvec<int, bool>] holding the given values. *)
Definition scalars (ints : list Z) (bools : list bool)
  : hetvec scalar_value [Int; Bool] :=
  Build_hetvec_cons (T := Int) ints
    (Build_hetvec_cons (T := Bool) bools tt).

(** * Properties of the container *)

Section HetvecFacts.
Context {ty : Type} {ty_dec : EqDec ty} {den : ty -> Type}
        {vec_ref : Subscript den}.

Abbreviation call := (elem den * elem den)%type (only parsing).

(** ** General purpose list facts *)

Section ListFacts.
Context {A B C : Type}.

Lemma fold_left_map_fuse (g : A -> B) (h : C -> B -> C) (l : list A) (s : C) :
  fold_left h (map g l) s = fold_left (fun s x => h s (g x)) l s.
Proof.
  revert s; induction l as [|x l IH]; intros s; simpl; [reflexivity | apply IH].
Qed.

Lemma fold_left_flat_map (g : A -> list B) (h : C -> B -> C) (l : list A)
      (s : C) :
  fold_left h (flat_map g l) s = fold_left (fun s x => fold_left h (g x) s) l s.
Proof.
  revert s; induction l as [|x l IH]; intros s; simpl; [reflexivity|].
  rewrite fold_left_app. apply IH.
Qed.

Lemma fold_left_ext_in (h1 h2 : C -> A -> C) (l : list A) (s : C) :
  (forall s x, In x l -> h1 s x = h2 s x) ->
  fold_left h1 l s = fold_left h2 l s.
Proof.
  revert s; induction l as [|x l IH]; intros s H; simpl; [reflexivity|].
  rewrite H by (left; reflexivity). apply IH.
  intros; apply H; right; assumption.
Qed.

Lemma filter_flat_map (p : B -> bool) (g : A -> list B) (l : list A) :
  filter p (flat_map g l) = flat_map (fun x => filter p (g x)) l.
Proof.
  induction l as [|x l IH]; simpl; [reflexivity|].
  rewrite filter_app, IH. reflexivity.
Qed.

Lemma filter_none (p : A -> bool) (l : list A) :
  (forall x, In x l -> p x = false) -> filter p l = [].
Proof.
  induction l as [|x l IH]; intros H; simpl; [reflexivity|].
  rewrite (H x) by (left; reflexivity). apply IH.
  intros; apply H; right; assumption.
Qed.

Lemma filter_all (p : A -> bool) (l : list A) :
  (forall x, In x l -> p x = true) -> filter p l = l.
Proof.
  induction l as [|x l IH]; intros H; simpl; [reflexivity|].
  rewrite (H x) by (left; reflexivity). f_equal. apply IH.
  intros; apply H; right; assumption.
Qed.

Lemma flat_map_nil (g : A -> list B) (l : list A) :
  (forall x, In x l -> g x = []) -> flat_map g l = [].
Proof.
  induction l as [|x l IH]; intros H; simpl; [reflexivity|].
  rewrite (H x) by (left; reflexivity). apply IH.
  intros; apply H; right; assumption.
Qed.

(** Reading a vector through the index range [lo .. size-1]. *)
Lemma map_nth_error_seq (l : list A) (lo : nat) :
  map (nth_error l) (seq lo (length l - lo)) = map Some (skipn lo l).
Proof.
  revert lo; induction l as [|a l IH]; intros lo; simpl.
  - destruct lo; reflexivity.
  - destruct lo as [|lo]; simpl.
    + f_equal. rewrite <- seq_shift, map_map. simpl.
      specialize (IH 0). rewrite Nat.sub_0_r in IH. simpl in IH. exact IH.
    + rewrite <- seq_shift, map_map. simpl. apply IH.
Qed.
End ListFacts.

(** ** The traversal as a fold over the visited pairs *)

Lemma apply_f_expand {St} (fcns : Fcns den St) (s : St) (p : call) :
  apply_f fcns s p = fold_left (apply_call fcns) (expand p) s.
Proof.
  unfold apply_f, expand, f, tag. destruct p as [[T a] [U b]]; simpl.
  destruct (ty_eq_dec T U); reflexivity.
Qed.

Lemma for_each_f {St} (T U : ty) (vec : list (den T)) (u : den U)
      (fcns : Fcns den St) (s : St) :
  fold_left (fun s t => f t u fcns s) vec s
  = fold_left (apply_f fcns)
              (map (fun t => (t, existT den U u)) (tagged T vec)) s.
Proof.
  unfold tagged. rewrite !fold_left_map_fuse. reflexivity.
Qed.

Lemma perform_u_spec {St} (Ts : list ty) (this : hetvec den Ts) (U : ty)
      (u : den U) (fcns : Fcns den St) (s : St) :
  perform_u Ts this U u fcns s
  = (this, fold_left (apply_f fcns)
                     (cross_with (parts Ts this) (existT den U u)) s).
Proof.
  revert this s; induction Ts as [|T Ts' IH]; intros this s; simpl.
  - reflexivity.
  - rewrite IH. destruct this as [vec b]; simpl.
    unfold cross_with; simpl. rewrite fold_left_app, for_each_f. reflexivity.
Qed.

Lemma for_each_perform_u {St} (T : ty) (Ts' : list ty) (vec : list (den T))
      (b : hetvec den Ts') (fcns : Fcns den St) (s : St) :
  fold_left (fun (st : hetvec den Ts' * St) t =>
               perform_u Ts' (fst st) T t fcns (snd st)) vec (b, s)
  = (b, fold_left (apply_f fcns)
                  (flat_map (cross_with (parts Ts' b)) (tagged T vec)) s).
Proof.
  revert s; induction vec as [|t vec IH]; intros s; simpl.
  - reflexivity.
  - rewrite perform_u_spec, IH, fold_left_app. reflexivity.
Qed.

(** The inner loop started at [i + 1] runs over the elements behind
    position [i]. *)
Lemma inner_loop_spec {St} (T : ty) (pre suf : list (den T)) (a : den T)
      (fcns : Fcns den St) (s : St) :
  for_range (length pre + 1) (length (pre ++ a :: suf)) (fun j s =>
    match nth_error (pre ++ a :: suf) (length pre),
          nth_error (pre ++ a :: suf) j with
    | Some vi, Some vj => f (subscript T vi) (subscript T vj) fcns s
    | _, _ => s
    end) s
  = fold_left (fun s b => f (subscript T a) (subscript T b) fcns s) suf s.
Proof.
  unfold for_range.
  rewrite nth_error_app2 by lia. rewrite Nat.sub_diag. simpl.
  transitivity
    (fold_left (fun s (o : option (den T)) =>
                  match o with
                  | Some vj => f (subscript T a) (subscript T vj) fcns s
                  | None => s
                  end)
               (map (nth_error (pre ++ a :: suf))
                    (seq (length pre + 1)
                         (length (pre ++ a :: suf) - (length pre + 1)))) s).
  { rewrite fold_left_map_fuse. reflexivity. }
  rewrite map_nth_error_seq.
  replace (skipn (length pre + 1) (pre ++ a :: suf)) with suf.
  - rewrite fold_left_map_fuse. reflexivity.
  - replace (pre ++ a :: suf) with ((pre ++ [a]) ++ suf)
      by (rewrite <- app_assoc; reflexivity).
    rewrite skipn_app.
    replace (length pre + 1) with (length (pre ++ [a]))
      by (rewrite length_app; reflexivity).
    rewrite skipn_all, Nat.sub_diag. reflexivity.
Qed.

Lemma outer_loop_spec {St} (T : ty) (pre suf : list (den T))
      (fcns : Fcns den St) (s : St) :
  fold_left (fun s i =>
    for_range (i + 1) (length (pre ++ suf)) (fun j s =>
      match nth_error (pre ++ suf) i, nth_error (pre ++ suf) j with
      | Some vi, Some vj => f (subscript T vi) (subscript T vj) fcns s
      | _, _ => s
      end) s) (seq (length pre) (length suf)) s
  = fold_left (apply_f fcns)
              (ordered_pairs (map subscripted (tagged T suf))) s.
Proof.
  revert pre s; induction suf as [|a suf IH]; intros pre s.
  - reflexivity.
  - cbn [length seq fold_left]. unfold tagged at 1.
    cbn [map ordered_pairs]. fold (tagged T suf).
    rewrite fold_left_app.
    rewrite (inner_loop_spec T pre suf a fcns s).
    replace (S (length pre)) with (length (pre ++ [a]))
      by (rewrite length_app; simpl; lia).
    replace (pre ++ a :: suf) with ((pre ++ [a]) ++ suf)
      by (rewrite <- app_assoc; reflexivity).
    rewrite IH. f_equal.
    unfold tagged. rewrite !fold_left_map_fuse. reflexivity.
Qed.

Lemma same_type_testing_spec {St} (T : ty) (vec : list (den T))
      (fcns : Fcns den St) (s : St) :
  same_type_testing vec fcns s
  = fold_left (apply_f fcns)
              (ordered_pairs (map subscripted (tagged T vec))) s.
Proof.
  unfold same_type_testing. unfold for_range at 1.
  rewrite Nat.sub_0_r. exact (outer_loop_spec T [] vec fcns s).
Qed.

(** [perform] returns the collection it was given, and its effect on the
    world is the fold of [hetvec<>::f] over [pairings]. *)
Lemma perform_spec {St} (Ts : list ty) (this : hetvec den Ts)
      (fcns : Fcns den St) (s : St) :
  perform Ts this fcns s
  = (this, fold_left (apply_f fcns) (pairings (parts Ts this)) s).
Proof.
  revert this s; induction Ts as [|T Ts' IH]; intros this s.
  - reflexivity.
  - destruct this as [vec b]. cbn [perform parts pairings v base].
    rewrite for_each_perform_u, IH, same_type_testing_spec.
    rewrite !fold_left_app. reflexivity.
Qed.

Lemma fold_apply_f_expand {St} (fcns : Fcns den St) (l : list call) (s : St) :
  fold_left (apply_f fcns) l s
  = fold_left (apply_call fcns) (flat_map expand l) s.
Proof.
  rewrite fold_left_flat_map. apply fold_left_ext_in.
  intros; apply apply_f_expand.
Qed.

Lemma fold_recorder (l log : list call) :
  fold_left (apply_call (recorder den)) l log = log ++ l.
Proof.
  revert log; induction l as [|c l IH]; intros log; simpl.
  - rewrite app_nil_r; reflexivity.
  - rewrite IH. unfold apply_call; simpl.
    destruct c as [[T a] [U b]]; simpl. rewrite <- app_assoc. reflexivity.
Qed.

(** The invocation sequence of a traversal in closed form. *)
Lemma invocations_spec (Ts : list ty) (hv : hetvec den Ts) :
  invocations Ts hv = flat_map expand (pairings (parts Ts hv)).
Proof.
  unfold invocations. rewrite perform_spec. simpl.
  rewrite fold_apply_f_expand, fold_recorder. reflexivity.
Qed.

(** Every visitor sees exactly the recorded invocations, in order. *)
Lemma perform_invocations {St} (Ts : list ty) (hv : hetvec den Ts)
      (fcns : Fcns den St) (s : St) :
  perform Ts hv fcns s
  = (hv, fold_left (apply_call fcns) (invocations Ts hv) s).
Proof.
  rewrite perform_spec, invocations_spec, fold_apply_f_expand. reflexivity.
Qed.

(** ** Static types of the stored elements *)

Lemma parts_well_tagged (Ts : list ty) (hv : hetvec den Ts) :
  well_tagged Ts (parts Ts hv).
Proof.
  induction Ts as [|T Ts' IH]; simpl.
  - constructor.
  - constructor; [|apply IH].
    intros e He. unfold tagged in He. apply in_map_iff in He.
    destruct He as [x [<- _]]. reflexivity.
Qed.

Lemma parts_length (Ts : list ty) (hv : hetvec den Ts) :
  length (parts Ts hv) = length Ts.
Proof.
  induction Ts as [|T Ts' IH]; simpl; [reflexivity | f_equal; apply IH].
Qed.

Lemma well_tagged_concat (Ts : list ty) (ps : list (list (elem den)))
      (e : elem den) :
  well_tagged Ts ps -> In e (concat ps) -> In (tag e) Ts.
Proof.
  induction 1 as [|T p Ts' ps' Hp _ IH]; simpl; intros He.
  - contradiction.
  - apply in_app_or in He. destruct He as [He|He].
    + left. symmetry. apply Hp, He.
    + right. apply IH, He.
Qed.

Lemma tag_is_true (A : ty) (e : elem den) : tag_is A e = true <-> tag e = A.
Proof.
  unfold tag_is. destruct (ty_eq_dec (tag e) A); split; congruence.
Qed.

Lemma tag_is_false (A : ty) (e : elem den) : tag_is A e = false <-> tag e <> A.
Proof.
  unfold tag_is. destruct (ty_eq_dec (tag e) A); split; congruence.
Qed.

Lemma typed_true (A B : ty) (c : call) :
  typed A B c = true <-> tag (fst c) = A /\ tag (snd c) = B.
Proof.
  unfold typed.
  destruct (ty_eq_dec (tag (fst c)) A), (ty_eq_dec (tag (snd c)) B);
    simpl; split; intros H; try discriminate; try tauto;
    destruct H; contradiction.
Qed.

Lemma typed_false (A B : ty) (c : call) :
  typed A B c = false <-> tag (fst c) <> A \/ tag (snd c) <> B.
Proof.
  unfold typed.
  destruct (ty_eq_dec (tag (fst c)) A), (ty_eq_dec (tag (snd c)) B);
    simpl; split; intros H; try discriminate; try tauto.
Qed.

(** With distinct declared types, selecting by type selects a partition. *)
Lemma filter_tag_concat (Ts : list ty) (ps : list (list (elem den))) :
  well_tagged Ts ps -> NoDup Ts ->
  forall (k : nat) (B : ty), nth_error Ts k = Some B ->
  filter (tag_is B) (concat ps) = nth k ps [].
Proof.
  induction 1 as [|T p Ts' ps' Hp Hps IH]; intros Hnd k B Hk.
  - destruct k; discriminate.
  - inversion Hnd as [|? ? HnotIn Hnd']; subst.
    simpl. rewrite filter_app. destruct k as [|k]; simpl in *.
    + injection Hk as <-.
      rewrite filter_all, filter_none, app_nil_r; [reflexivity| |].
      * intros e He. apply tag_is_false. intros Heq.
        apply HnotIn. rewrite <- Heq.
        eapply well_tagged_concat; eassumption.
      * intros e He. apply tag_is_true, Hp, He.
    + rewrite filter_none.
      * simpl. apply IH; assumption.
      * intros e He. apply tag_is_false. rewrite (Hp e He).
        intros ->. apply HnotIn. eapply nth_error_In; eassumption.
Qed.

Lemma filter_tag_undeclared (Ts : list ty) (ps : list (list (elem den)))
      (B : ty) :
  well_tagged Ts ps -> ~ In B Ts -> filter (tag_is B) (concat ps) = [].
Proof.
  intros Hwt HB. apply filter_none. intros e He. apply tag_is_false.
  intros <-. apply HB. eapply well_tagged_concat; eassumption.
Qed.

Lemma cross_with_concat (ps : list (list (elem den))) (u : elem den) :
  cross_with ps u = map (fun t => (t, u)) (concat ps).
Proof.
  unfold cross_with. rewrite flat_map_concat_map, concat_map. reflexivity.
Qed.

(** ** Selecting the invocations of one handler *)

Ltac tag_cases :=
  unfold expand, typed, tag_is, swap; simpl;
  repeat match goal with
         | |- context [ty_eq_dec (tag ?a) ?b] =>
             destruct (ty_eq_dec (tag a) b); simpl
         end;
  try reflexivity; try congruence.

Lemma other_types_cons (t w : elem den) (L : list (elem den)) :
  other_types t (w :: L) -> tag w <> tag t /\ other_types t L.
Proof.
  intros H; split; [apply H; left; reflexivity|].
  intros x Hx; apply H; right; assumption.
Qed.

Lemma forwarded_first (t : elem den) (L : list (elem den)) (B : ty) :
  other_types t L ->
  filter (typed (tag t) B) (flat_map expand (map (fun w => (w, t)) L))
  = map (pair t) (filter (tag_is B) L).
Proof.
  induction L as [|w L' IH]; intros H; simpl; [reflexivity|].
  apply other_types_cons in H. destruct H as [Hw H].
  rewrite filter_app, IH by assumption. clear IH.
  generalize (filter (tag_is B) L'); intros l.
  tag_cases.
Qed.

Lemma forwarded_second (t : elem den) (L : list (elem den)) (B : ty) :
  other_types t L ->
  filter (typed B (tag t)) (flat_map expand (map (fun w => (w, t)) L))
  = map (fun w => (w, t)) (filter (tag_is B) L).
Proof.
  induction L as [|w L' IH]; intros H; simpl; [reflexivity|].
  apply other_types_cons in H. destruct H as [Hw H].
  rewrite filter_app, IH by assumption. clear IH.
  generalize (filter (tag_is B) L'); intros l.
  tag_cases.
Qed.

Lemma forwarded_unrelated (t : elem den) (L : list (elem den)) (A B : ty) :
  A <> tag t -> B <> tag t ->
  filter (typed A B) (flat_map expand (map (fun w => (w, t)) L)) = [].
Proof.
  intros HA HB. apply filter_none. intros c Hc. apply typed_false.
  apply in_flat_map in Hc. destruct Hc as [q [Hq Hc]].
  apply in_map_iff in Hq. destruct Hq as [w [<- Hw]].
  unfold expand in Hc; simpl in Hc.
  destruct (ty_eq_dec (tag w) (tag t)); simpl in Hc;
    intuition (subst; simpl; auto).
Qed.

Lemma forwarded_same (t : elem den) (L : list (elem den)) (A : ty) :
  other_types t L ->
  filter (typed A A) (flat_map expand (map (fun w => (w, t)) L)) = [].
Proof.
  intros other. apply filter_none. intros c Hc. apply typed_false.
  apply in_flat_map in Hc. destruct Hc as [q [Hq Hc]].
  apply in_map_iff in Hq. destruct Hq as [w [<- Hw]].
  specialize (other w Hw).
  unfold expand in Hc; simpl in Hc.
  destruct (ty_eq_dec (tag w) (tag t)); simpl in Hc; [contradiction|].
  destruct (ty_eq_dec (tag t) A) as [<-|];
    intuition (subst; simpl; auto).
Qed.

(** The pairs inside one partition, all of type [T]. *)
Section Intra.
Variable T : ty.
Variable p : list (elem den).
Hypothesis homogeneous : forall e, In e p -> tag e = T.

Lemma ordered_pairs_In (A : Type) (l : list A) (a b : A) :
  In (a, b) (ordered_pairs l) -> In a l /\ In b l.
Proof.
  induction l as [|x l IH]; simpl; [contradiction|].
  intros H. apply in_app_or in H. destruct H as [H|H].
  - apply in_map_iff in H. destruct H as [y [Hy Hin]].
    injection Hy as <- <-. auto.
  - destruct (IH H). auto.
Qed.

Lemma intra_expand : flat_map expand (ordered_pairs p) = ordered_pairs p.
Proof.
  assert (H : forall q, In q (ordered_pairs p) -> expand q = [q]).
  { intros [a b] Hq. apply ordered_pairs_In in Hq. destruct Hq as [Ha Hb].
    unfold expand; simpl.
    destruct (ty_eq_dec (tag a) (tag b)) as [|n]; [reflexivity|].
    exfalso; apply n.
    rewrite (homogeneous a Ha), (homogeneous b Hb). reflexivity. }
  induction (ordered_pairs p) as [|q l IH]; simpl; [reflexivity|].
  rewrite (H q) by (left; reflexivity). simpl. f_equal.
  apply IH. intros; apply H; right; assumption.
Qed.

Lemma intra_same :
  filter (typed T T) (flat_map expand (ordered_pairs p)) = ordered_pairs p.
Proof.
  rewrite intra_expand. apply filter_all. intros [a b] Hq.
  apply ordered_pairs_In in Hq. destruct Hq as [Ha Hb].
  apply typed_true; simpl. auto.
Qed.

Lemma intra_other (A B : ty) :
  A <> T \/ B <> T ->
  filter (typed A B) (flat_map expand (ordered_pairs p)) = [].
Proof.
  intros HAB. rewrite intra_expand. apply filter_none. intros [a b] Hq.
  apply ordered_pairs_In in Hq. destruct Hq as [Ha Hb].
  apply typed_false; simpl.
  rewrite (homogeneous a Ha), (homogeneous b Hb).
  destruct HAB; [left | right]; congruence.
Qed.
End Intra.

Lemma flat_map_flat_map {A B C : Type} (g : B -> list C) (h : A -> list B)
      (l : list A) :
  flat_map g (flat_map h l) = flat_map (fun x => flat_map g (h x)) l.
Proof.
  induction l as [|x l IH]; simpl; [reflexivity|].
  rewrite flat_map_app, IH. reflexivity.
Qed.

Lemma flat_map_ext_in {A B : Type} (g h : A -> list B) (l : list A) :
  (forall x, In x l -> g x = h x) -> flat_map g l = flat_map h l.
Proof.
  induction l as [|x l IH]; intros H; simpl; [reflexivity|].
  rewrite (H x) by (left; reflexivity). f_equal.
  apply IH. intros; apply H; right; assumption.
Qed.

(** All elements of one partition forwarded to the later partitions. *)
Section ForwardedAll.
Variables (T : ty) (p : list (elem den)).
Variables (Ts' : list ty) (ps' : list (list (elem den))).
Hypothesis homogeneous : forall e, In e p -> tag e = T.
Hypothesis later : well_tagged Ts' ps'.
Hypothesis fresh : ~ In T Ts'.

Lemma later_other_types (t : elem den) : In t p -> other_types t (concat ps').
Proof.
  intros Ht w Hw Heq. apply fresh.
  rewrite <- (homogeneous t Ht), <- Heq.
  eapply well_tagged_concat; eassumption.
Qed.

Lemma select_forwarded (A B : ty) :
  filter (typed A B) (flat_map expand (flat_map (cross_with ps') p))
  = flat_map (fun t =>
      filter (typed A B)
             (flat_map expand (map (fun w => (w, t)) (concat ps')))) p.
Proof.
  rewrite flat_map_flat_map, filter_flat_map.
  apply flat_map_ext_in. intros t _. rewrite cross_with_concat. reflexivity.
Qed.

Lemma forwarded_all_first (B : ty) :
  filter (typed T B) (flat_map expand (flat_map (cross_with ps') p))
  = flat_map (fun u => map (pair u) (filter (tag_is B) (concat ps'))) p.
Proof.
  rewrite select_forwarded. apply flat_map_ext_in. intros t Ht.
  rewrite <- (homogeneous t Ht).
  apply forwarded_first, later_other_types, Ht.
Qed.

Lemma forwarded_all_second (B : ty) :
  filter (typed B T) (flat_map expand (flat_map (cross_with ps') p))
  = flat_map (fun u => map (fun w => (w, u))
                           (filter (tag_is B) (concat ps'))) p.
Proof.
  rewrite select_forwarded. apply flat_map_ext_in. intros t Ht.
  rewrite <- (homogeneous t Ht).
  apply forwarded_second, later_other_types, Ht.
Qed.

Lemma forwarded_all_unrelated (A B : ty) :
  A <> T -> B <> T ->
  filter (typed A B) (flat_map expand (flat_map (cross_with ps') p)) = [].
Proof.
  intros HA HB. rewrite select_forwarded. apply flat_map_nil.
  intros t Ht. apply forwarded_unrelated;
    rewrite (homogeneous t Ht); assumption.
Qed.

Lemma forwarded_all_same (A : ty) :
  filter (typed A A) (flat_map expand (flat_map (cross_with ps') p)) = [].
Proof.
  rewrite select_forwarded. apply flat_map_nil.
  intros t Ht. apply forwarded_same, later_other_types, Ht.
Qed.
End ForwardedAll.

Lemma subscripted_homogeneous (T : ty) (p : list (elem den)) :
  (forall e, In e p -> tag e = T) ->
  forall e, In e (map subscripted p) -> tag e = subscript_ty T.
Proof.
  intros Hp e He. apply in_map_iff in He. destruct He as [x [<- Hx]].
  unfold subscripted, tag; simpl. f_equal. apply Hp, Hx.
Qed.

(** A call of [hetvec<>::f] is made on the subscripts of two elements of
    one partition, or on two stored elements. *)
Lemma pairings_In (Ts : list ty) (ps : list (list (elem den))) (q : call) :
  well_tagged Ts ps -> In q (pairings ps) ->
  (exists a b, In a (concat ps) /\ In b (concat ps) /\ tag a = tag b
               /\ q = (subscripted a, subscripted b))
  \/ (In (fst q) (concat ps) /\ In (snd q) (concat ps)).
Proof.
  induction 1 as [|T p Ts' ps' Hp _ IH]; simpl; [contradiction|].
  intros H. apply in_app_or in H. destruct H as [H|H].
  - left. destruct q as [a b]. apply ordered_pairs_In in H.
    destruct H as [Ha Hb]. apply in_map_iff in Ha, Hb.
    destruct Ha as [x [<- Hx]]. destruct Hb as [y [<- Hy]].
    exists x, y. repeat split; try (apply in_or_app; left; assumption).
    rewrite (Hp x Hx), (Hp y Hy). reflexivity.
  - apply in_app_or in H. destruct H as [H|H].
    + right. apply in_flat_map in H. destruct H as [t [Ht H]].
      rewrite cross_with_concat in H. apply in_map_iff in H.
      destruct H as [w [<- Hw]]. simpl.
      split; apply in_or_app; [right | left]; assumption.
    + destruct (IH H) as [[a [b [Ha [Hb [E ->]]]]] | [H1 H2]].
      * left. exists a, b.
        repeat split; try (apply in_or_app; right; assumption). exact E.
      * right. split; apply in_or_app; right; assumption.
Qed.

Lemma expand_In (q c : call) :
  In c (expand q) -> c = q \/ c = swap q.
Proof.
  unfold expand. destruct (ty_eq_dec (tag (fst q)) (tag (snd q)));
    simpl; intuition auto.
Qed.

(** A handler is invoked on two subscripts of one type, or on two elements
    of declared types. *)
Lemma calls_declared (Ts : list ty) (ps : list (list (elem den))) (c : call) :
  well_tagged Ts ps -> In c (flat_map expand (pairings ps)) ->
  (exists T, In T Ts /\ tag (fst c) = subscript_ty T
             /\ tag (snd c) = subscript_ty T)
  \/ (In (tag (fst c)) Ts /\ In (tag (snd c)) Ts).
Proof.
  intros Hwt Hc. apply in_flat_map in Hc. destruct Hc as [q [Hq Hc]].
  apply (pairings_In Ts ps q Hwt) in Hq.
  apply expand_In in Hc.
  destruct Hq as [[a [b [Ha [Hb [E ->]]]]] | [H1 H2]].
  - left. exists (tag a). split; [eapply well_tagged_concat; eassumption|].
    destruct Hc as [-> | ->]; unfold swap, subscripted, tag in *; simpl;
      rewrite E; split; reflexivity.
  - right. apply (well_tagged_concat Ts ps _ Hwt) in H1, H2.
    destruct Hc as [-> | ->]; simpl; auto.
Qed.

Lemma calls_undeclared (Ts : list ty) (ps : list (list (elem den))) (A B : ty) :
  well_tagged Ts ps -> A <> B -> ~ In A Ts \/ ~ In B Ts ->
  filter (typed A B) (flat_map expand (pairings ps)) = [].
Proof.
  intros Hwt Hne HAB. apply filter_none. intros c Hc. apply typed_false.
  destruct (calls_declared Ts ps c Hwt Hc) as [[T [_ [H1 H2]]] | [H1 H2]].
  - destruct (ty_eq_dec (tag (fst c)) A) as [E|]; [|left; assumption].
    right. intros E'. apply Hne. congruence.
  - destruct HAB as [H|H]; [left | right]; intros E; apply H; congruence.
Qed.

(** *** The invocations of each handler, in closed form *)

(** Cross pairs: partition [i] is declared before partition [j]. *)
Lemma select_cross (Ts : list ty) (ps : list (list (elem den))) :
  well_tagged Ts ps -> NoDup Ts ->
  forall (i j : nat) (A B : ty),
    i < j -> nth_error Ts i = Some A -> nth_error Ts j = Some B ->
    filter (typed A B) (flat_map expand (pairings ps))
    = flat_map (fun u => map (pair u) (nth j ps [])) (nth i ps [])
    /\ filter (typed B A) (flat_map expand (pairings ps))
       = flat_map (fun u => map (fun w => (w, u)) (nth j ps [])) (nth i ps []).
Proof.
  induction 1 as [|T p Ts' ps' Hp Hps IH]; intros Hnd i j A B Hij HA HB.
  - destruct i; discriminate.
  - inversion Hnd as [|? ? Hfresh Hnd']; subst.
    destruct j as [|j]; [lia|].
    cbn [pairings nth]. rewrite !flat_map_app, !filter_app.
    cbn [nth_error] in HB.
    assert (HBT : B <> T).
    { intros ->. apply Hfresh. eapply nth_error_In; eassumption. }
    pose proof (subscripted_homogeneous T p Hp) as Hp'.
    assert (HAB : A <> B).
    { intros ->. rewrite NoDup_nth_error in Hnd.
      assert (i = S j); [|lia].
      apply Hnd; [apply nth_error_Some; congruence|].
      cbn [nth_error]. congruence. }
    assert (Hone : forall S, (A <> S \/ B <> S) /\ (B <> S \/ A <> S)).
    { intros S. destruct (ty_eq_dec A S) as [<-|]; auto. }
    destruct i as [|i]; cbn [nth_error nth] in *.
    + injection HA as <-.
      rewrite !(intra_other _ _ Hp') by apply Hone.
      rewrite (forwarded_all_first T p Ts' ps' Hp Hps Hfresh),
              (forwarded_all_second T p Ts' ps' Hp Hps Hfresh).
      rewrite !(calls_undeclared Ts' ps') by auto.
      rewrite (filter_tag_concat Ts' ps' Hps Hnd' j B HB).
      rewrite !app_nil_r. split; reflexivity.
    + assert (HAT : A <> T).
      { intros ->. apply Hfresh. eapply nth_error_In; eassumption. }
      rewrite !(intra_other _ _ Hp') by apply Hone.
      rewrite !(forwarded_all_unrelated T p ps') by auto.
      simpl. apply IH; [assumption | lia | assumption | assumption].
Qed.

(** No invocation has both arguments of a type that is the subscript type
    of no partition. *)
Lemma same_typed_none (Ts : list ty) (ps : list (list (elem den))) (S : ty) :
  well_tagged Ts ps -> NoDup Ts ->
  (forall T, In T Ts -> subscript_ty T <> S) ->
  filter (typed S S) (flat_map expand (pairings ps)) = [].
Proof.
  induction 1 as [|T p Ts' ps' Hp Hps IH]; intros Hnd HS.
  - reflexivity.
  - inversion Hnd as [|? ? Hfresh Hnd']; subst.
    cbn [pairings]. rewrite !flat_map_app, !filter_app.
    rewrite (forwarded_all_same T p Ts' ps' Hp Hps Hfresh).
    rewrite (intra_other _ _ (subscripted_homogeneous T p Hp)).
    + simpl. apply IH; [assumption|]. intros T' HT'. apply HS. right; exact HT'.
    + left. intros E. apply (HS T); [left; reflexivity | congruence].
Qed.

(** Same-type pairs of partition [i]: the invocations on two arguments of
    its subscript type, when no other partition has this subscript
    type. *)
Lemma select_same (Ts : list ty) (ps : list (list (elem den))) :
  well_tagged Ts ps -> NoDup Ts ->
  forall (i : nat) (A : ty),
    nth_error Ts i = Some A ->
    (forall T, In T Ts -> subscript_ty T = subscript_ty A -> T = A) ->
    filter (typed (subscript_ty A) (subscript_ty A))
           (flat_map expand (pairings ps))
    = ordered_pairs (map subscripted (nth i ps [])).
Proof.
  induction 1 as [|T p Ts' ps' Hp Hps IH]; intros Hnd i A HA Hinj.
  - destruct i; discriminate.
  - inversion Hnd as [|? ? Hfresh Hnd']; subst.
    cbn [pairings]. rewrite !flat_map_app, !filter_app.
    rewrite (forwarded_all_same T p Ts' ps' Hp Hps Hfresh).
    pose proof (subscripted_homogeneous T p Hp) as Hp'.
    destruct i as [|i]; cbn [nth_error nth] in *.
    + injection HA as <-.
      rewrite (intra_same _ _ Hp').
      rewrite (same_typed_none Ts' ps'); [| assumption | assumption |].
      * rewrite !app_nil_r. reflexivity.
      * intros T' HT' E. apply Hfresh.
        rewrite <- (Hinj T' (or_intror HT') E). exact HT'.
    + assert (HAT : T <> A).
      { intros ->. apply Hfresh. eapply nth_error_In; eassumption. }
      rewrite (intra_other _ _ Hp').
      * simpl. apply IH; try assumption.
        intros T' HT'. apply Hinj. right; exact HT'.
      * left. intros E. apply HAT, Hinj; [left; reflexivity | congruence].
Qed.

(** ** Counting pairs *)

Lemma flat_map_pair_list_prod {A B : Type} (l : list A) (l' : list B) :
  flat_map (fun u => map (pair u) l') l = list_prod l l'.
Proof.
  induction l as [|a l IH]; simpl; [reflexivity | rewrite IH; reflexivity].
Qed.

Lemma flat_map_mirrored (P Q : list (elem den)) :
  flat_map (fun u => map (fun w => (w, u)) Q) P = map swap (list_prod P Q).
Proof.
  induction P as [|a P IH]; simpl; [reflexivity|].
  rewrite map_app, map_map, IH. reflexivity.
Qed.

Lemma list_prod_nil_r {A B : Type} (l : list A) : list_prod l (@nil B) = [].
Proof. induction l; simpl; auto. Qed.

Lemma list_prod_cons_r {A B : Type} (l : list A) (b : B) (l' : list B) :
  Permutation (list_prod l (b :: l'))
              (map (fun a => (a, b)) l ++ list_prod l l').
Proof.
  induction l as [|a l IH]; simpl; [constructor|].
  apply perm_skip. rewrite IH.
  rewrite !app_assoc. apply Permutation_app_tail, Permutation_app_comm.
Qed.

(** Enumerating [Q x P] and mirroring each pair enumerates [P x Q]. *)
Lemma list_prod_mirrored (P Q : list (elem den)) :
  Permutation (map swap (list_prod Q P)) (list_prod P Q).
Proof.
  induction Q as [|b Q IH]; simpl.
  - rewrite list_prod_nil_r. constructor.
  - rewrite map_app, map_map, list_prod_cons_r. simpl.
    apply Permutation_app_head, IH.
Qed.

Lemma swap_involutive (c : elem den * elem den) : swap (swap c) = c.
Proof. destruct c; reflexivity. Qed.

Lemma ordered_pairs_length {A : Type} (l : list A) :
  length (ordered_pairs l) = choose2 (length l).
Proof.
  unfold choose2.
  assert (H : 2 * length (ordered_pairs l) = length l * (length l - 1)).
  { induction l as [|a l IH]; simpl; [reflexivity|].
    rewrite length_app, length_map. rewrite Nat.sub_0_r.
    destruct (length l) as [|n] eqn:E; simpl in *; [lia|].
    rewrite Nat.sub_0_r in IH. nia. }
  rewrite <- H, Nat.mul_comm, Nat.div_mul by discriminate. reflexivity.
Qed.

(** The members of [ordered_pairs l] are the pairs of positions [p < q]. *)
Lemma ordered_pairs_positions {A : Type} (l : list A) (a b : A) :
  In (a, b) (ordered_pairs l)
  <-> exists p q, p < q /\ nth_error l p = Some a /\ nth_error l q = Some b.
Proof.
  induction l as [|x l IH]; simpl.
  - split; [contradiction|].
    intros [p [q [_ [H _]]]]. destruct p; discriminate.
  - rewrite in_app_iff, in_map_iff, IH. split.
    + intros [[y [Hy Hin]] | [p [q [Hpq [Hp Hq]]]]].
      * injection Hy as <- <-.
        apply In_nth_error in Hin. destruct Hin as [q Hq].
        exists 0, (S q). split; [lia | split; [reflexivity | assumption]].
      * exists (S p), (S q). split; [lia | split; assumption].
    + intros [p [q [Hpq [Hp Hq]]]].
      destruct q as [|q]; [lia|]. simpl in Hq.
      destruct p as [|p]; simpl in Hp.
      * injection Hp as ->. left. exists b. split; [reflexivity|].
        eapply nth_error_In; eassumption.
      * right. exists p, q. split; [lia | split; assumption].
Qed.

Lemma ordered_pairs_never_mirrored {A : Type} (l : list A) (a b : A) :
  NoDup l -> In (a, b) (ordered_pairs l) -> ~ In (b, a) (ordered_pairs l).
Proof.
  intros Hnd Hab Hba.
  apply ordered_pairs_positions in Hab, Hba.
  destruct Hab as [p [q [Hpq [Hp Hq]]]].
  destruct Hba as [q' [p' [Hqp [Hq' Hp']]]].
  rewrite NoDup_nth_error in Hnd.
  assert (p < length l) by (apply nth_error_Some; congruence).
  assert (q < length l) by (apply nth_error_Some; congruence).
  assert (p = p') by (apply Hnd; [assumption | congruence]).
  assert (q = q') by (apply Hnd; [assumption | congruence]).
  lia.
Qed.

Lemma NoDup_map_injective {A B : Type} (g : A -> B) (l : list A) :
  (forall x y, g x = g y -> x = y) -> NoDup l -> NoDup (map g l).
Proof.
  intros Hinj. induction 1 as [|a l Ha _ IH]; simpl; constructor; [|exact IH].
  intros Hin. apply in_map_iff in Hin. destruct Hin as [x [Hx Hin]].
  apply Hinj in Hx. subst x. contradiction.
Qed.

Lemma NoDup_list_prod {A B : Type} (l : list A) (l' : list B) :
  NoDup l -> NoDup l' -> NoDup (list_prod l l').
Proof.
  intros Hl Hl'. induction Hl as [|a l Ha _ IH]; simpl; [constructor|].
  apply NoDup_app.
  - apply NoDup_map_injective; [|exact Hl'].
    intros x y E. injection E as E. exact E.
  - exact IH.
  - intros [x y] H1 H2. apply in_map_iff in H1. destruct H1 as [z [Ez _]].
    injection Ez as <- _. apply in_prod_iff in H2. tauto.
Qed.

Lemma NoDup_ordered_pairs {A : Type} (l : list A) :
  NoDup l -> NoDup (ordered_pairs l).
Proof.
  induction 1 as [|a l Ha Hl IH]; simpl; [constructor|].
  apply NoDup_app.
  - apply NoDup_map_injective; [|exact Hl].
    intros x y E. injection E as E. exact E.
  - exact IH.
  - intros [x y] H1 H2. apply in_map_iff in H1. destruct H1 as [z [Ez _]].
    injection Ez as <- _. apply ordered_pairs_In in H2. tauto.
Qed.

Lemma swap_injective (c c' : elem den * elem den) : swap c = swap c' -> c = c'.
Proof.
  intros E. rewrite <- (swap_involutive c), E. apply swap_involutive.
Qed.

Lemma in_map_swap (l : list (elem den * elem den)) (u w : elem den) :
  In (w, u) (map swap l) <-> In (u, w) l.
Proof.
  rewrite in_map_iff. split.
  - intros [[a b] [E H]]. unfold swap in E; simpl in E.
    injection E as <- <-. exact H.
  - intros H. exists (u, w). split; [reflexivity | exact H].
Qed.

Lemma part_tag (Ts : list ty) (hv : hetvec den Ts) (i : nat) (A : ty)
      (e : elem den) :
  nth_error Ts i = Some A -> In e (part Ts hv i) -> tag e = A.
Proof.
  unfold part. generalize (parts_well_tagged Ts hv).
  generalize (parts Ts hv) as ps. intros ps Hwt. clear hv. revert i.
  induction Hwt as [|T p Ts' ps' Hp _ IH]; intros i Hi He.
  - destruct i; discriminate.
  - destruct i as [|i]; simpl in *.
    + injection Hi as <-. apply Hp, He.
    + eapply IH; eassumption.
Qed.

(** ** Coverage of the traversal *)

(** C1: in a collection over distinct declared types, take two distinct
    partitions [i] and [j] holding [mi] and [mj] elements.  Whatever the
    visitor, its handlers run on exactly the recorded invocations; among
    them, those with argument types [(Ti, Tj)] are exactly the pairs
    [(u, w)] with [u] in partition [i] and [w] in partition [j], each
    once, and those with types [(Tj, Ti)] are exactly the mirrored pairs
    [(w, u)], each once: [mi * mj] invocations in each direction and
    [2 * mi * mj] for the type pair. *)
Theorem cross_pairs_both_directions
        (Ts : list ty) (hv : hetvec den Ts) (i j : nat) (Ti Tj : ty) :
  NoDup Ts -> i <> j ->
  nth_error Ts i = Some Ti -> nth_error Ts j = Some Tj ->
  let Pi := part Ts hv i in
  let Pj := part Ts hv j in
  let calls_ij := filter (typed Ti Tj) (invocations Ts hv) in
  let calls_ji := filter (typed Tj Ti) (invocations Ts hv) in
  (forall (St : Type) (fcns : Fcns den St) (s : St),
      snd (perform Ts hv fcns s)
      = fold_left (apply_call fcns) (invocations Ts hv) s)
  /\ Permutation calls_ij (list_prod Pi Pj)
  /\ Permutation calls_ji (map swap (list_prod Pi Pj))
  /\ length calls_ij = length Pi * length Pj
  /\ length calls_ji = length Pi * length Pj
  /\ length calls_ij + length calls_ji = 2 * length Pi * length Pj
  /\ (forall u w : elem den,
         (In (u, w) calls_ij <-> In u Pi /\ In w Pj)
         /\ (In (w, u) calls_ji <-> In u Pi /\ In w Pj))
  /\ (NoDup Pi -> NoDup Pj -> NoDup calls_ij /\ NoDup calls_ji).
Proof.
  intros Hnd Hij Hi Hj Pi Pj calls_ij calls_ji.
  assert (Hperm : Permutation calls_ij (list_prod Pi Pj)
                  /\ Permutation calls_ji (map swap (list_prod Pi Pj))).
  { subst calls_ij calls_ji Pi Pj. unfold part.
    rewrite invocations_spec.
    destruct (Nat.lt_ge_cases i j) as [Hlt|Hge].
    - destruct (select_cross Ts (parts Ts hv) (parts_well_tagged Ts hv)
                             Hnd i j Ti Tj Hlt Hi Hj) as [E1 E2].
      rewrite E1, E2, flat_map_pair_list_prod, flat_map_mirrored.
      split; reflexivity.
    - assert (Hlt : j < i) by lia.
      destruct (select_cross Ts (parts Ts hv) (parts_well_tagged Ts hv)
                             Hnd j i Tj Ti Hlt Hj Hi) as [E1 E2].
      rewrite E1, E2, flat_map_pair_list_prod, flat_map_mirrored.
      split.
      + apply list_prod_mirrored.
      + symmetry. apply list_prod_mirrored. }
  destruct Hperm as [P1 P2].
  assert (L1 : length calls_ij = length Pi * length Pj).
  { rewrite (Permutation_length P1). apply length_prod. }
  assert (L2 : length calls_ji = length Pi * length Pj).
  { rewrite (Permutation_length P2), length_map. apply length_prod. }
  split; [intros St fcns s; rewrite perform_invocations; reflexivity|].
  do 5 (split; [assumption || lia|]).
  split.
  - intros u w. split.
    + rewrite <- (in_prod_iff Pi Pj u w). split; apply Permutation_in;
        [exact P1 | symmetry; exact P1].
    + split; intros H.
      * apply (Permutation_in _ P2), in_map_swap, in_prod_iff in H. exact H.
      * apply (Permutation_in _ (Permutation_sym P2)), in_map_swap, in_prod_iff.
        exact H.
  - intros HPi HPj.
    pose proof (NoDup_list_prod Pi Pj HPi HPj) as Hprod.
    split.
    + apply (Permutation_NoDup (Permutation_sym P1)), Hprod.
    + apply (Permutation_NoDup (Permutation_sym P2)).
      apply NoDup_map_injective; [exact swap_injective | exact Hprod].
Qed.

Lemma plain_subscripted (T : ty) (p : list (elem den)) :
  plain_subscript T -> (forall e, In e p -> tag e = T) ->
  map subscripted p = p.
Proof.
  intros [_ Hplain] Hp. rewrite <- (map_id p) at 2. apply map_ext_in.
  intros [U x] He. specialize (Hp _ He). simpl in Hp. subst U.
  apply Hplain.
Qed.

(** X14: in a collection over distinct declared types, take a partition
    [i] whose subscript type is the subscript type of no other partition.
    The invocations on two arguments of that type are exactly the pairs
    [(v[p], v[q])], [p < q], of subscript expressions of partition [i], in
    the order of the two loops: one invocation for each pair of
    positions, first argument the subscript of the element stored first,
    [C(mi, 2)] invocations in all.  When [Ti] is a type other than [bool],
    whose subscripts are the stored elements at type [Ti], these are the
    invocations with argument types [(Ti, Ti)] on the elements
    themselves, and when the stored elements are pairwise different no
    pair is invoked twice or in the mirrored order. *)
Theorem same_type_pairs_on_subscripts
        (Ts : list ty) (hv : hetvec den Ts) (i : nat) (Ti : ty) :
  NoDup Ts -> nth_error Ts i = Some Ti ->
  (forall T, In T Ts -> subscript_ty T = subscript_ty Ti -> T = Ti) ->
  let Pi := part Ts hv i in
  let Si := subscript_ty Ti in
  let calls_ii := filter (typed Si Si) (invocations Ts hv) in
  calls_ii = ordered_pairs (map subscripted Pi)
  /\ length calls_ii = choose2 (length Pi)
  /\ (forall a b : elem den,
         In (a, b) calls_ii
         <-> exists p q x y, p < q /\ nth_error Pi p = Some x
                             /\ nth_error Pi q = Some y
                             /\ a = subscripted x /\ b = subscripted y)
  /\ (plain_subscript Ti ->
      filter (typed Ti Ti) (invocations Ts hv) = ordered_pairs Pi
      /\ (NoDup Pi ->
          NoDup calls_ii
          /\ forall a b : elem den, In (a, b) calls_ii -> ~ In (b, a) calls_ii)).
Proof.
  intros Hnd Hi Hinj Pi Si calls_ii.
  assert (E : calls_ii = ordered_pairs (map subscripted Pi)).
  { subst calls_ii Pi Si. unfold part. rewrite invocations_spec.
    apply (select_same Ts (parts Ts hv) (parts_well_tagged Ts hv)
                       Hnd i Ti Hi Hinj). }
  split; [exact E|].
  split; [rewrite E, ordered_pairs_length, length_map; reflexivity|].
  split.
  - intros a b. rewrite E, ordered_pairs_positions. split.
    + intros [p [q [Hpq [Hp Hq]]]].
      rewrite nth_error_map in Hp, Hq.
      destruct (nth_error Pi p) as [x|] eqn:Ex; [|discriminate].
      destruct (nth_error Pi q) as [y|] eqn:Ey; [|discriminate].
      injection Hp as <-. injection Hq as <-.
      exists p, q, x, y. auto.
    + intros [p [q [x [y [Hpq [Hp [Hq [-> ->]]]]]]]].
      exists p, q. rewrite !nth_error_map, Hp, Hq. auto.
  - intros Hplain.
    assert (EP : map subscripted Pi = Pi).
    { apply (plain_subscripted Ti); [exact Hplain|].
      intros e He. exact (part_tag Ts hv i Ti e Hi He). }
    assert (ES : Si = Ti) by apply Hplain.
    split.
    + rewrite <- ES at 1 2. fold calls_ii. rewrite E, EP. reflexivity.
    + intros HPi. rewrite E, EP.
      split; [apply NoDup_ordered_pairs, HPi|].
      intros a b. apply ordered_pairs_never_mirrored, HPi.
Qed.

(** ** Order of the two mirrored invocations *)

Lemma declared_before_tail (T : ty) (Ts : list ty) (A B : ty) :
  declared_before Ts A B -> declared_before (T :: Ts) A B.
Proof.
  intros [i [j [Hij [Hi Hj]]]]. exists (S i), (S j).
  split; [lia | split; assumption].
Qed.

Lemma declared_before_head (T : ty) (Ts : list ty) (B : ty) :
  In B Ts -> declared_before (T :: Ts) T B.
Proof.
  intros HB. apply In_nth_error in HB. destruct HB as [j Hj].
  exists 0, (S j). split; [lia | split; [reflexivity | assumption]].
Qed.

Lemma declared_before_asym (Ts : list ty) (A B : ty) :
  NoDup Ts -> declared_before Ts A B ->
  A <> B /\ ~ declared_before Ts B A.
Proof.
  intros Hnd [i [j [Hij [Hi Hj]]]]. rewrite NoDup_nth_error in Hnd.
  assert (Hil : i < length Ts) by (apply nth_error_Some; congruence).
  assert (Hjl : j < length Ts) by (apply nth_error_Some; congruence).
  split.
  - intros <-. assert (i = j) by (apply Hnd; [assumption | congruence]). lia.
  - intros [j' [i' [Hji [Hj' Hi']]]].
    assert (i = i') by (apply Hnd; [assumption | congruence]).
    assert (j = j') by (apply Hnd; [assumption | congruence]).
    lia.
Qed.

Lemma pairings_later_first (Ts : list ty) (ps : list (list (elem den))) :
  well_tagged Ts ps ->
  forall q, In q (pairings ps) ->
            tag (fst q) = tag (snd q) \/ later_first Ts q.
Proof.
  induction 1 as [|T p Ts' ps' Hp Hps IH]; intros q Hq; simpl in Hq.
  - contradiction.
  - apply in_app_or in Hq. destruct Hq as [Hq|Hq].
    + left. destruct q as [a b]. apply ordered_pairs_In in Hq. simpl.
      destruct Hq as [Ha Hb].
      rewrite (subscripted_homogeneous T p Hp a Ha),
              (subscripted_homogeneous T p Hp b Hb). reflexivity.
    + apply in_app_or in Hq. destruct Hq as [Hq|Hq].
      * right. apply in_flat_map in Hq. destruct Hq as [t [Ht Hq]].
        rewrite cross_with_concat in Hq. apply in_map_iff in Hq.
        destruct Hq as [w [<- Hw]]. unfold later_first; simpl.
        rewrite (Hp t Ht). apply declared_before_head.
        eapply well_tagged_concat; eassumption.
      * destruct (IH q Hq) as [H|H]; [left; assumption | right].
        apply declared_before_tail, H.
Qed.

Section Adjacent.
Variable Ts : list ty.
Hypothesis distinct : NoDup Ts.

(** An invocation with the later declared type first is immediately
    followed by its mirror image. *)
Lemma mirror_follows (l : list (elem den * elem den)) :
  (forall q, In q l -> tag (fst q) = tag (snd q) \/ later_first Ts q) ->
  forall pre c post,
    flat_map expand l = pre ++ c :: post -> later_first Ts c ->
    exists post', post = swap c :: post'.
Proof.
  induction l as [|q l IH]; intros Hl pre c post E Hc; simpl in E.
  - destruct pre; discriminate.
  - assert (Hl' : forall q', In q' l ->
              tag (fst q') = tag (snd q') \/ later_first Ts q')
      by (intros; apply Hl; right; assumption).
    destruct (declared_before_asym Ts _ _ distinct Hc) as [Hne Hasym].
    unfold expand in E at 1.
    destruct (ty_eq_dec (tag (fst q)) (tag (snd q))) as [Heq|Hneq];
      simpl in E.
    + destruct pre as [|x pre]; simpl in E; injection E as E1 E2.
      * subst c. congruence.
      * eapply IH; eassumption.
    + destruct pre as [|x pre]; simpl in E; injection E as E1 E2.
      * subst c. eexists. symmetry. exact E2.
      * destruct pre as [|y pre]; simpl in E2; injection E2 as E2 E3.
        -- subst c. exfalso.
           destruct (Hl q (or_introl eq_refl)) as [H|H];
             [contradiction|].
           apply Hasym. exact H.
        -- eapply IH; eassumption.
Qed.

(** An invocation with the earlier declared type first is immediately
    preceded by its mirror image. *)
Lemma mirror_precedes (l : list (elem den * elem den)) :
  (forall q, In q l -> tag (fst q) = tag (snd q) \/ later_first Ts q) ->
  forall pre c post,
    flat_map expand l = pre ++ c :: post -> later_first Ts (swap c) ->
    exists pre', pre = pre' ++ [swap c].
Proof.
  induction l as [|q l IH]; intros Hl pre c post E Hc; simpl in E.
  - destruct pre; discriminate.
  - assert (Hl' : forall q', In q' l ->
              tag (fst q') = tag (snd q') \/ later_first Ts q')
      by (intros; apply Hl; right; assumption).
    destruct (declared_before_asym Ts _ _ distinct Hc) as [Hne Hasym].
    unfold expand in E at 1.
    destruct (ty_eq_dec (tag (fst q)) (tag (snd q))) as [Heq|Hneq];
      simpl in E.
    + destruct pre as [|x pre]; simpl in E; injection E as E1 E2.
      * subst c. simpl in Hne. congruence.
      * destruct (IH Hl' pre c post E2 Hc) as [pre' ->].
        exists (x :: pre'). reflexivity.
    + destruct pre as [|x pre]; simpl in E; injection E as E1 E2.
      * subst c. exfalso.
        destruct (Hl q (or_introl eq_refl)) as [H|H]; [contradiction|].
        apply Hasym. exact H.
      * destruct pre as [|y pre]; simpl in E2; injection E2 as E2 E3.
        -- subst c x. exists []. rewrite swap_involutive. reflexivity.
        -- destruct (IH Hl' pre c post E3 Hc) as [pre' ->].
           exists (x :: y :: pre'). reflexivity.
Qed.
End Adjacent.

(** C10: let partition [i] be declared before partition [j], [u] an
    element of partition [i] and [w] an element of partition [j].  The
    traversal invokes [fcns.f(w, u)] and directly afterwards
    [fcns.f(u, w)]; moreover wherever [(w, u)] occurs in the invocation
    sequence the next invocation is [(u, w)], and wherever [(u, w)]
    occurs the invocation just before it is [(w, u)]. *)
Theorem mirrored_invocations_adjacent
        (Ts : list ty) (hv : hetvec den Ts) (i j : nat) (Ti Tj : ty)
        (u w : elem den) :
  NoDup Ts -> i < j ->
  nth_error Ts i = Some Ti -> nth_error Ts j = Some Tj ->
  In u (part Ts hv i) -> In w (part Ts hv j) ->
  (exists pre post, invocations Ts hv = pre ++ (w, u) :: (u, w) :: post)
  /\ (forall pre post,
         invocations Ts hv = pre ++ (w, u) :: post ->
         exists post', post = (u, w) :: post')
  /\ (forall pre post,
         invocations Ts hv = pre ++ (u, w) :: post ->
         exists pre', pre = pre' ++ [(w, u)]).
Proof.
  intros Hnd Hij Hi Hj Hu Hw.
  assert (Hlf : later_first Ts (w, u)).
  { unfold later_first; simpl.
    rewrite (part_tag Ts hv i Ti u Hi Hu), (part_tag Ts hv j Tj w Hj Hw).
    exists i, j. auto. }
  pose proof (pairings_later_first Ts (parts Ts hv)
                                   (parts_well_tagged Ts hv)) as Hinv.
  assert (Hfollow : forall pre post,
             invocations Ts hv = pre ++ (w, u) :: post ->
             exists post', post = (u, w) :: post').
  { intros pre post E. rewrite invocations_spec in E.
    exact (mirror_follows Ts Hnd _ Hinv pre (w, u) post E Hlf). }
  split; [|split; [exact Hfollow|]].
  - assert (Hin : In (w, u) (invocations Ts hv)).
    { destruct (select_cross Ts (parts Ts hv) (parts_well_tagged Ts hv)
                             Hnd i j Ti Tj Hij Hi Hj) as [_ E2].
      rewrite <- invocations_spec in E2.
      assert (H : In (w, u) (filter (typed Tj Ti) (invocations Ts hv))).
      { rewrite E2. apply in_flat_map. exists u. split; [exact Hu|].
        apply in_map_iff. exists w. split; [reflexivity | exact Hw]. }
      apply filter_In in H. tauto. }
    apply in_split in Hin. destruct Hin as [pre [post E]].
    destruct (Hfollow pre post E) as [post' ->].
    exists pre, post'. exact E.
  - intros pre post E. rewrite invocations_spec in E.
    exact (mirror_precedes Ts Hnd _ Hinv pre (u, w) post E Hlf).
Qed.

(** ** Frame and determinism *)

Lemma perform_u_unmodified {St} (Ts : list ty) (this : hetvec den Ts) (U : ty)
      (u : den U) (fcns : Fcns den St) (s : St) :
  fst (perform_u Ts this U u fcns s) = this.
Proof. rewrite perform_u_spec. reflexivity. Qed.

(** C7: a traversal hands back the collection unchanged: for every
    visitor (its handlers reach the world [St] only, never the
    collection) and every starting world, every partition has the same
    contents after [perform] as before; the same holds for the internal
    [perform(u, fcns)]. *)
Theorem perform_leaves_collection_unmodified
        (St : Type) (Ts : list ty) (hv : hetvec den Ts)
        (fcns : Fcns den St) (s : St) :
  fst (perform Ts hv fcns s) = hv
  /\ parts Ts (fst (perform Ts hv fcns s)) = parts Ts hv
  /\ (forall (U : ty) (u : den U),
         fst (perform_u Ts hv U u fcns s) = hv).
Proof.
  rewrite perform_spec. simpl. repeat split.
  intros U u. apply perform_u_unmodified.
Qed.

Lemma fold_logging {St} (fcns : Fcns den St) (l : list (elem den * elem den))
      (s : St) (log : list (elem den * elem den)) :
  fold_left (apply_call (logging fcns)) l (s, log)
  = (fold_left (apply_call fcns) l s, log ++ l).
Proof.
  revert s log; induction l as [|c l IH]; intros s log; simpl.
  - rewrite app_nil_r. reflexivity.
  - unfold apply_call at 2. simpl. rewrite IH.
    destruct c as [[T a] [U b]]; simpl. rewrite <- app_assoc. reflexivity.
Qed.

(** C8: the invocation sequence of a traversal is a function of the
    collection state alone.  Two runs on the same state with the same
    visitor log the same handlers with the same arguments in the same
    order and end in the same world; the logged sequence does not even
    depend on the world the run starts in. *)
Theorem invocation_sequence_deterministic
        (St : Type) (Ts : list ty) (hv : hetvec den Ts)
        (fcns : Fcns den St) (s s' : St) :
  observed_calls Ts hv fcns s = invocations Ts hv
  /\ observed_calls Ts hv fcns s = observed_calls Ts hv fcns s'
  /\ perform Ts hv (logging fcns) (s, [])
     = (hv, (snd (perform Ts hv fcns s), invocations Ts hv)).
Proof.
  assert (E : forall s0, perform Ts hv (logging fcns) (s0, [])
              = (hv, (snd (perform Ts hv fcns s0), invocations Ts hv))).
  { intros s0. rewrite !perform_invocations, fold_logging. reflexivity. }
  unfold observed_calls. rewrite !E. simpl. repeat split.
Qed.

(** ** [clear] *)

Lemma clear_is_default (Ts : list ty) (hv : hetvec den Ts) :
  clear Ts hv = hetvec_default den Ts.
Proof.
  induction Ts as [|T Ts' IH]; simpl.
  - destruct hv; reflexivity.
  - rewrite IH. reflexivity.
Qed.

Lemma parts_default (Ts : list ty) :
  parts Ts (hetvec_default den Ts) = repeat [] (length Ts).
Proof.
  induction Ts as [|T Ts' IH]; simpl; [reflexivity | rewrite IH; reflexivity].
Qed.

Lemma part_default (Ts : list ty) (i : nat) :
  part Ts (hetvec_default den Ts) i = [].
Proof.
  unfold part. rewrite parts_default.
  generalize (length Ts) as n. revert i.
  induction i as [|i IH]; intros [|n]; simpl; auto.
Qed.

Lemma pairings_empty (n : nat) :
  pairings (repeat ([] : list (elem den)) n) = [].
Proof. induction n as [|n IH]; simpl; [reflexivity | exact IH]. Qed.

Lemma size_default (Ts : list ty) : size Ts (hetvec_default den Ts) = 0%Z.
Proof.
  induction Ts as [|T Ts' IH]; simpl; [reflexivity|].
  rewrite IH. reflexivity.
Qed.

(** C6: [clear] puts the collection into the state of a freshly
    constructed empty collection of the same type list (default
    constructed, or constructed from no arguments), so every later
    operation behaves on it as on a fresh one; every partition is empty,
    [empty()] answers [true], and a traversal that follows invokes no
    handler and leaves the world of any visitor as it was. *)
Theorem clear_resets_to_fresh
        (T : ty) (Ts : list ty) (hv : hetvec den (T :: Ts)) :
  clear (T :: Ts) hv = hetvec_default den (T :: Ts)
  /\ hetvec_ctor (T :: Ts) [] = Some (clear (T :: Ts) hv)
  /\ (forall i, part (T :: Ts) (clear (T :: Ts) hv) i = [])
  /\ size (T :: Ts) (clear (T :: Ts) hv) = 0%Z
  /\ empty T Ts (clear (T :: Ts) hv) = true
  /\ invocations (T :: Ts) (clear (T :: Ts) hv) = []
  /\ (forall (St : Type) (fcns : Fcns den St) (s : St),
         perform (T :: Ts) (clear (T :: Ts) hv) fcns s
         = (clear (T :: Ts) hv, s)).
Proof.
  assert (Hinv : invocations (T :: Ts) (hetvec_default den (T :: Ts)) = []).
  { rewrite invocations_spec, parts_default, pairings_empty. reflexivity. }
  rewrite clear_is_default. split; [reflexivity|].
  split; [reflexivity|].
  split; [intros i; apply part_default|].
  split; [apply size_default|].
  split; [unfold empty; rewrite size_default; reflexivity|].
  split; [exact Hinv|].
  intros St fcns s. rewrite perform_invocations, Hinv. reflexivity.
Qed.

(** ** [push_back] and [size] *)

Lemma tagged_app (T : ty) (l1 l2 : list (den T)) :
  tagged T (l1 ++ l2) = tagged T l1 ++ tagged T l2.
Proof. apply map_app. Qed.

Lemma tagged_cast (U T : ty) (e : U = T) (u : den U) :
  existT den T (cast e u) = existT den U u.
Proof. destruct e. reflexivity. Qed.

Lemma size_spec (Ts : list ty) (hv : hetvec den Ts) :
  size Ts hv = (Z.of_nat (count Ts hv) mod 2 ^ SIZE_WIDTH)%Z.
Proof.
  unfold count. induction Ts as [|T Ts' IH]; simpl.
  - reflexivity.
  - rewrite IH. unfold size_t_add, tagged.
    rewrite Zplus_mod_idemp_r, length_map, Nat2Z.inj_add. reflexivity.
Qed.

Lemma size_fits (Ts : list ty) (hv : hetvec den Ts) :
  (Z.of_nat (count Ts hv) <= SIZE_MAX)%Z ->
  size Ts hv = Z.of_nat (count Ts hv).
Proof.
  intros H. rewrite size_spec. apply Z.mod_small.
  unfold SIZE_MAX in H. lia.
Qed.

Lemma size_range (Ts : list ty) (hv : hetvec den Ts) :
  (0 <= size Ts hv <= SIZE_MAX)%Z.
Proof.
  rewrite size_spec. unfold SIZE_MAX.
  assert (0 <= Z.of_nat (count Ts hv) mod 2 ^ SIZE_WIDTH < 2 ^ SIZE_WIDTH)%Z
    by (apply Z.mod_pos_bound; reflexivity).
  lia.
Qed.

Lemma push_back_declared (Ts : list ty) (hv : hetvec den Ts) (U : ty)
      (u : den U) :
  In U Ts -> exists hv', push_back Ts hv U u = Some hv'.
Proof.
  induction Ts as [|T Ts' IH]; simpl; intros HU; [contradiction|].
  destruct (ty_eq_dec U T) as [e|n]; [eexists; reflexivity|].
  destruct HU as [HU|HU]; [congruence|].
  destruct (IH (base hv) HU) as [b ->]. eexists; reflexivity.
Qed.

Lemma push_back_undeclared (Ts : list ty) (hv : hetvec den Ts) (U : ty)
      (u : den U) :
  ~ In U Ts -> push_back Ts hv U u = None.
Proof.
  induction Ts as [|T Ts' IH]; simpl; intros HU; [reflexivity|].
  destruct (ty_eq_dec U T) as [e|n]; [exfalso; apply HU; left; congruence|].
  rewrite IH by tauto. reflexivity.
Qed.

(** Partition by partition effect of one insertion. *)
Lemma push_back_part (Ts : list ty) (hv hv' : hetvec den Ts) (U : ty)
      (u : den U) :
  NoDup Ts -> push_back Ts hv U u = Some hv' ->
  forall i Ti, nth_error Ts i = Some Ti ->
    part Ts hv' i
    = part Ts hv i ++ (if ty_eq_dec U Ti then [existT den U u] else []).
Proof.
  unfold part.
  induction Ts as [|T Ts' IH]; simpl; intros Hnd H i Ti Hi; [discriminate|].
  inversion Hnd as [|? ? Hfresh Hnd']; subst.
  destruct (ty_eq_dec U T) as [e|n].
  - injection H as <-. destruct i as [|i]; simpl in *.
    + injection Hi as <-. rewrite tagged_app. simpl. rewrite tagged_cast.
      destruct (ty_eq_dec U T); [reflexivity | contradiction].
    + destruct (ty_eq_dec U Ti) as [e'|]; [|rewrite app_nil_r; reflexivity].
      exfalso. apply Hfresh. rewrite <- e, e'.
      eapply nth_error_In; eassumption.
  - destruct (push_back Ts' (base hv) U u) as [b|] eqn:E; [|discriminate].
    injection H as <-. destruct i as [|i]; simpl in *.
    + injection Hi as <-.
      destruct (ty_eq_dec U T); [contradiction|].
      rewrite app_nil_r; reflexivity.
    + eapply IH; eassumption.
Qed.

Lemma push_back_count (Ts : list ty) (hv hv' : hetvec den Ts) (U : ty)
      (u : den U) :
  push_back Ts hv U u = Some hv' -> count Ts hv' = S (count Ts hv).
Proof.
  unfold count.
  induction Ts as [|T Ts' IH]; simpl; intros H; [discriminate|].
  destruct (ty_eq_dec U T) as [e|n].
  - injection H as <-. simpl. unfold tagged.
    rewrite !length_map, length_app. simpl. lia.
  - destruct (push_back Ts' (base hv) U u) as [b|] eqn:E; [|discriminate].
    injection H as <-. simpl. rewrite (IH _ _ E). lia.
Qed.

(** C9: for a collection over distinct declared types and a value [u]
    of the declared type [U] of partition [i], [push_back(u)] succeeds,
    appends exactly [u] at the end of partition [i] and leaves every
    other partition as it was; the element count grows by exactly one,
    and so does [size()] whenever the new count is representable in
    [size_t] (always the case for vectors held in memory). *)
Theorem push_back_appends_to_own_partition
        (Ts : list ty) (hv : hetvec den Ts) (i : nat) (U : ty) (u : den U) :
  NoDup Ts -> nth_error Ts i = Some U ->
  exists hv',
    push_back Ts hv U u = Some hv'
    /\ part Ts hv' i = part Ts hv i ++ [existT den U u]
    /\ (forall j, j <> i -> part Ts hv' j = part Ts hv j)
    /\ count Ts hv' = count Ts hv + 1
    /\ size Ts hv' = size_t_add (size Ts hv) 1
    /\ ((Z.of_nat (count Ts hv) < SIZE_MAX)%Z ->
        size Ts hv' = (size Ts hv + 1)%Z).
Proof.
  intros Hnd Hi.
  destruct (push_back_declared Ts hv U u (nth_error_In _ _ Hi)) as [hv' H].
  exists hv'. split; [exact H|].
  pose proof (push_back_part Ts hv hv' U u Hnd H) as Hpart.
  pose proof (push_back_count Ts hv hv' U u H) as Hcount.
  split; [|split; [|split; [lia|split]]].
  - rewrite (Hpart i U Hi).
    destruct (ty_eq_dec U U); [reflexivity | contradiction].
  - intros j Hj. destruct (nth_error Ts j) as [Tj|] eqn:Ej.
    + rewrite (Hpart j Tj Ej).
      destruct (ty_eq_dec U Tj) as [e|]; [|apply app_nil_r].
      exfalso. apply Hj. rewrite NoDup_nth_error in Hnd.
      apply Hnd; [apply nth_error_Some; congruence | congruence].
    + apply nth_error_None in Ej. unfold part.
      rewrite !nth_overflow by (rewrite parts_length; exact Ej).
      reflexivity.
  - rewrite !size_spec, Hcount. unfold size_t_add.
    rewrite Zplus_mod_idemp_l, Nat2Z.inj_succ. reflexivity.
  - intros Hfit. rewrite !size_fits by (rewrite ?Hcount; lia). lia.
Qed.

Lemma push_back_all_app (Ts : list ty) (hv : hetvec den Ts)
      (l1 l2 : list (elem den)) :
  push_back_all Ts hv (l1 ++ l2)
  = match push_back_all Ts hv l1 with
    | Some hv' => push_back_all Ts hv' l2
    | None => None
    end.
Proof.
  revert hv; induction l1 as [|[U u] l1 IH]; intros hv; simpl.
  - reflexivity.
  - destruct (push_back Ts hv U u); [apply IH | reflexivity].
Qed.

Lemma push_back_all_declared (Ts : list ty) (es : list (elem den)) :
  (forall e, In e es -> In (tag e) Ts) ->
  forall hv, exists hv',
    push_back_all Ts hv es = Some hv'
    /\ count Ts hv' = count Ts hv + length es.
Proof.
  induction es as [|[U u] es IH]; intros Hes hv; simpl.
  - exists hv. split; [reflexivity | lia].
  - destruct (push_back_declared Ts hv U u) as [hv1 H1].
    { apply (Hes (existT den U u)). left; reflexivity. }
    rewrite H1.
    destruct (IH (fun e He => Hes e (or_intror He)) hv1) as [hv' [H' Hc]].
    exists hv'. split; [exact H'|].
    rewrite Hc, (push_back_count Ts hv hv1 U u H1). lia.
Qed.

(** Insertion is first in, first out within each partition. *)
Lemma push_back_all_part (Ts : list ty) (es : list (elem den)) :
  NoDup Ts ->
  forall hv hv', push_back_all Ts hv es = Some hv' ->
  forall i Ti, nth_error Ts i = Some Ti ->
    part Ts hv' i = part Ts hv i ++ filter (tag_is Ti) es.
Proof.
  intros Hnd. induction es as [|[U u] es IH]; intros hv hv' H i Ti Hi;
    simpl in H.
  - injection H as <-. rewrite app_nil_r. reflexivity.
  - destruct (push_back Ts hv U u) as [hv1|] eqn:H1; [|discriminate].
    rewrite (IH hv1 hv' H i Ti Hi).
    rewrite (push_back_part Ts hv hv1 U u Hnd H1 i Ti Hi).
    rewrite <- app_assoc. f_equal. simpl. unfold tag_is at 2. simpl.
    destruct (ty_eq_dec U Ti); reflexivity.
Qed.

(** C5: starting from the empty collection, any sequence of [N]
    insertions of values of declared types succeeds and leaves exactly
    [N] elements in the partitions; [size()] returns that number reduced
    to [size_t], hence exactly [N] for every [N] that [size_t] can
    represent.  For every collection state [size()] is the sum over the
    partitions of their element counts, reduced to [size_t], and it is
    never negative. *)
Theorem size_counts_insertions (Ts : list ty) (es : list (elem den)) :
  (forall e, In e es -> In (tag e) Ts) ->
  (exists hv,
      push_back_all Ts (hetvec_default den Ts) es = Some hv
      /\ count Ts hv = length es
      /\ size Ts hv = (Z.of_nat (length es) mod 2 ^ SIZE_WIDTH)%Z
      /\ ((Z.of_nat (length es) <= SIZE_MAX)%Z ->
          size Ts hv = Z.of_nat (length es)))
  /\ (forall hv : hetvec den Ts,
         size Ts hv = (Z.of_nat (count Ts hv) mod 2 ^ SIZE_WIDTH)%Z
         /\ ((Z.of_nat (count Ts hv) <= SIZE_MAX)%Z ->
             size Ts hv = Z.of_nat (count Ts hv))
         /\ (0 <= size Ts hv)%Z).
Proof.
  intros Hes. split.
  - destruct (push_back_all_declared Ts es Hes (hetvec_default den Ts))
      as [hv [H Hc]].
    assert (Hz : count Ts (hetvec_default den Ts) = 0).
    { unfold count. rewrite parts_default.
      induction (length Ts); simpl; auto. }
    rewrite Hz in Hc. simpl in Hc.
    exists hv. split; [exact H|]. split; [exact Hc|].
    split; [rewrite size_spec, Hc; reflexivity|].
    intros Hfit. rewrite size_fits; rewrite Hc; [reflexivity | exact Hfit].
  - intros hv. split; [apply size_spec|].
    split; [apply size_fits | apply size_range].
Qed.

(** ** Construction with initial elements *)

Lemma hetvec_ctor_nil (Ts : list ty) :
  hetvec_ctor Ts [] = Some (hetvec_default den Ts).
Proof. destruct Ts; reflexivity. Qed.

Lemma concat_rev_default (Ts : list ty) :
  concat (map (@rev (elem den)) (parts Ts (hetvec_default den Ts))) = [].
Proof.
  rewrite parts_default. induction (length Ts); simpl; auto.
Qed.

Lemma well_tagged_rev (Ts : list ty) (ps : list (list (elem den))) :
  well_tagged Ts ps -> well_tagged Ts (map (@rev (elem den)) ps).
Proof.
  induction 1 as [|T p Ts' ps' Hp _ IH]; simpl; constructor; [|exact IH].
  intros e He. apply Hp, in_rev, He.
Qed.

(** The arguments of an accepted constructor call are grouped by type in
    declared order, and each partition holds its group back to front. *)
Lemma hetvec_ctor_grouped (Ts : list ty) :
  forall es hv, hetvec_ctor Ts es = Some hv ->
                es = concat (map (@rev (elem den)) (parts Ts hv)).
Proof.
  induction Ts as [|T Ts' IHTs]; intros es hv H.
  - destruct es; [reflexivity | discriminate].
  - cbn [hetvec_ctor] in H. revert hv H.
    induction es as [|[U u] rest IHes]; intros hv H;
      cbn [hetvec_ctor_level] in H.
    + injection H as <-. symmetry. apply (concat_rev_default (T :: Ts')).
    + destruct (ty_eq_dec U T) as [e|n].
      * destruct (hetvec_ctor_level T Ts' (hetvec_ctor Ts') rest)
          as [this|] eqn:E; [|discriminate].
        injection H as <-. cbn [parts map concat v base].
        rewrite tagged_app, rev_app_distr. simpl. rewrite tagged_cast.
        f_equal. rewrite (IHes this eq_refl). reflexivity.
      * match type of H with
        | match ?c with _ => _ end = _ => destruct c as [b|] eqn:E
        end; [|discriminate].
        injection H as <-. cbn [parts map concat v base]. simpl.
        apply IHTs, E.
Qed.

Lemma hetvec_ctor_tags (Ts : list ty) (es : list (elem den))
      (hv : hetvec den Ts) :
  hetvec_ctor Ts es = Some hv -> forall e, In e es -> In (tag e) Ts.
Proof.
  intros H e He. rewrite (hetvec_ctor_grouped Ts es hv H) in He.
  eapply well_tagged_concat; [|exact He].
  apply well_tagged_rev, parts_well_tagged.
Qed.

Lemma push_back_all_skip (T : ty) (Ts' : list ty) (vec : list (den T))
      (l : list (elem den)) :
  (forall e, In e l -> tag e <> T) ->
  forall b : hetvec den Ts',
    push_back_all (T :: Ts') {| v := vec; base := b |} l
    = match push_back_all Ts' b l with
      | Some b' => Some {| v := vec; base := b' |}
      | None => None
      end.
Proof.
  induction l as [|[U u] l IH]; intros Hl b; simpl.
  - reflexivity.
  - destruct (ty_eq_dec U T) as [e|n].
    + exfalso. apply (Hl (existT den U u)); [left; reflexivity | exact e].
    + destruct (push_back Ts' b U u) as [b1|]; [|reflexivity].
      apply IH. intros; apply Hl; right; assumption.
Qed.

Lemma hetvec_ctor_push_back_rev (Ts : list ty) :
  NoDup Ts ->
  forall es hv, hetvec_ctor Ts es = Some hv ->
                push_back_all Ts (hetvec_default den Ts) (rev es) = Some hv.
Proof.
  induction Ts as [|T Ts' IHTs]; intros Hnd es hv H.
  - destruct es; [|discriminate]. destruct hv. reflexivity.
  - inversion Hnd as [|? ? Hfresh Hnd']; subst.
    cbn [hetvec_ctor] in H. revert hv H.
    induction es as [|[U u] rest IHes]; intros hv H.
    + cbn [hetvec_ctor_level] in H. injection H as <-. reflexivity.
    + pose proof H as Hall. cbn [hetvec_ctor_level] in H.
      cbn [rev]. destruct (ty_eq_dec U T) as [e|n] eqn:Edec.
      * destruct (hetvec_ctor_level T Ts' (hetvec_ctor Ts') rest)
          as [this|] eqn:E; [|discriminate].
        injection H as <-.
        rewrite push_back_all_app, (IHes this eq_refl).
        cbn [push_back_all push_back]. rewrite Edec. reflexivity.
      * match type of H with
        | match ?c with _ => _ end = _ => destruct c as [b|] eqn:E
        end; [|discriminate].
        injection H as <-.
        pose proof (IHTs Hnd' _ b E) as Hpb. cbn [rev] in Hpb.
        cbn [hetvec_default].
        rewrite push_back_all_skip.
        -- unfold elem in *. rewrite Hpb. reflexivity.
        -- intros x Hx Heq. apply Hfresh. rewrite <- Heq.
           apply (hetvec_ctor_tags Ts' _ b E x).
           apply in_rev. exact Hx.
Qed.


(** C4 (as the code has it): for a collection over distinct declared
    types, whenever the variadic constructor accepts the arguments
    [e1 .. ek], the constructed collection is the one obtained from the
    empty collection by [push_back] of [ek], ..., [e1], that is in
    reverse order: the arguments are grouped by type in declared order,
    each argument is stored in the partition of its exact static type,
    and each partition holds its arguments last argument first. *)
Theorem construction_is_reversed_insertion
        (Ts : list ty) (es : list (elem den)) (hv : hetvec den Ts) :
  NoDup Ts -> hetvec_ctor Ts es = Some hv ->
  push_back_all Ts (hetvec_default den Ts) (rev es) = Some hv
  /\ es = concat (map (@rev (elem den)) (parts Ts hv))
  /\ (forall i Ti, nth_error Ts i = Some Ti ->
         part Ts hv i = rev (filter (tag_is Ti) es)).
Proof.
  intros Hnd H.
  pose proof (hetvec_ctor_grouped Ts es hv H) as Hg.
  split; [apply hetvec_ctor_push_back_rev; assumption|].
  split; [exact Hg|].
  intros i Ti Hi. rewrite Hg at 1.
  rewrite (filter_tag_concat Ts _
             (well_tagged_rev Ts _ (parts_well_tagged Ts hv))
                             Hnd i Ti Hi).
  unfold part.
  destruct (nth_error (parts Ts hv) i) as [p|] eqn:E.
  - rewrite (nth_error_nth _ _ _ E).
    rewrite (nth_error_nth _ _ [] (map_nth_error (@rev (elem den)) _ _ E)).
    symmetry. apply rev_involutive.
  - apply nth_error_None in E. rewrite parts_length in E.
    apply nth_error_None in E. congruence.
Qed.

(** * Further properties of the container *)

(** ** Insertion: declared types, first match, stored elements *)


(** One insertion in terms of the whole list of partitions. *)
Lemma push_back_parts (Ts : list ty) :
  forall (hv : hetvec den Ts) (i : nat) (U : ty) (u : den U),
    nth_error Ts i = Some U ->
    (forall k, k < i -> nth_error Ts k <> Some U) ->
    exists hv',
      push_back Ts hv U u = Some hv'
      /\ parts Ts hv'
         = firstn i (parts Ts hv)
           ++ (part Ts hv i ++ [existT den U u]) :: skipn (S i) (parts Ts hv).
Proof.
  unfold part.
  induction Ts as [|T Ts' IH]; intros hv i U u Hi Hfirst.
  - destruct i; discriminate.
  - cbn [push_back parts]. destruct (ty_eq_dec U T) as [e|n].
    + destruct i as [|i].
      * eexists. split; [reflexivity|]. cbn [parts v base firstn skipn nth app].
        rewrite tagged_app. simpl. rewrite tagged_cast. reflexivity.
      * exfalso. apply (Hfirst 0); [lia|]. simpl. congruence.
    + destruct i as [|i]; [simpl in Hi; congruence|].
      destruct (IH (base hv) i U u Hi) as [b [Hb Hparts]].
      { intros k Hk. apply (Hfirst (S k)). lia. }
      rewrite Hb. eexists. split; [reflexivity|].
      cbn [parts v base firstn skipn nth app]. rewrite Hparts. reflexivity.
Qed.

(** X2: whether or not the declared types are distinct, [push_back] appends
    the value to the first partition declared with its type and leaves
    every other partition, also a later one of the same type, as it
    was. *)
Theorem push_back_goes_to_first_match
        (Ts : list ty) (hv : hetvec den Ts) (i : nat) (U : ty) (u : den U) :
  nth_error Ts i = Some U ->
  (forall k, k < i -> nth_error Ts k <> Some U) ->
  exists hv',
    push_back Ts hv U u = Some hv'
    /\ parts Ts hv'
       = firstn i (parts Ts hv)
         ++ (part Ts hv i ++ [existT den U u]) :: skipn (S i) (parts Ts hv)
    /\ (forall j, j <> i -> part Ts hv' j = part Ts hv j).
Proof.
  intros Hi Hfirst.
  destruct (push_back_parts Ts hv i U u Hi Hfirst) as [hv' [H Hparts]].
  exists hv'. split; [exact H|]. split; [exact Hparts|].
  intros j Hj. unfold part in *. rewrite Hparts.
  assert (Hlen : i < length (parts Ts hv)).
  { rewrite parts_length. apply nth_error_Some. congruence. }
  assert (Hf : length (firstn i (parts Ts hv)) = i)
    by (rewrite length_firstn; lia).
  destruct (Nat.lt_ge_cases j i) as [Hlt|Hge].
  - rewrite app_nth1 by lia.
    rewrite <- (firstn_skipn i (parts Ts hv)) at 2.
    rewrite app_nth1 by lia. reflexivity.
  - rewrite app_nth2 by lia. rewrite Hf.
    destruct (j - i) as [|d] eqn:Ed; [lia|]. simpl.
    rewrite <- (firstn_skipn (S i) (parts Ts hv)) at 2.
    rewrite app_nth2 by (rewrite length_firstn; lia).
    rewrite length_firstn. f_equal. lia.
Qed.

Lemma count_elements (Ts : list ty) (hv : hetvec den Ts) :
  count Ts hv = length (elements Ts hv).
Proof. unfold count, elements. symmetry. apply length_concat. Qed.

Lemma push_back_elements (Ts : list ty) :
  forall (hv hv' : hetvec den Ts) (U : ty) (u : den U),
    push_back Ts hv U u = Some hv' ->
    Permutation (elements Ts hv') (elements Ts hv ++ [existT den U u]).
Proof.
  unfold elements.
  induction Ts as [|T Ts' IH]; intros hv hv' U u H; cbn [push_back] in H.
  - discriminate.
  - destruct (ty_eq_dec U T) as [e|n].
    + injection H as <-. cbn [parts concat v base].
      rewrite tagged_app. simpl. rewrite tagged_cast.
      rewrite <- !app_assoc. apply Permutation_app_head.
      simpl. apply Permutation_cons_append.
    + destruct (push_back Ts' (base hv) U u) as [b|] eqn:E; [|discriminate].
      injection H as <-. cbn [parts concat v base].
      rewrite (IH _ _ _ _ E), app_assoc. reflexivity.
Qed.

(** X3: after a sequence of insertions the collection holds what it held
    before together with the inserted values, and nothing else. *)
Theorem push_back_all_stores_exactly
        (Ts : list ty) (es : list (elem den)) (hv hv' : hetvec den Ts) :
  push_back_all Ts hv es = Some hv' ->
  Permutation (elements Ts hv') (elements Ts hv ++ es)
  /\ (forall e, In e (elements Ts hv') <-> In e (elements Ts hv) \/ In e es)
  /\ count Ts hv' = count Ts hv + length es.
Proof.
  intros H.
  assert (P : Permutation (elements Ts hv') (elements Ts hv ++ es)).
  { revert hv H. induction es as [|[U u] es IH]; intros hv H; simpl in H.
    - injection H as <-. rewrite app_nil_r. reflexivity.
    - destruct (push_back Ts hv U u) as [hv1|] eqn:H1; [|discriminate].
      rewrite (IH hv1 H), (push_back_elements Ts hv hv1 U u H1).
      rewrite <- app_assoc. reflexivity. }
  split; [exact P|]. split.
  - intros e. rewrite <- in_app_iff. split; apply Permutation_in;
      [exact P | symmetry; exact P].
  - rewrite !count_elements, (Permutation_length P), length_app. reflexivity.
Qed.

(** ** Construction: accepted argument lists, stored elements *)

(** On elements alone the constructors behave as [hetvec_ctor]. *)
Lemma hetvec_ctor_args_elements (Ts : list ty) :
  forall es : list (elem den),
    hetvec_ctor_args Ts (map Element es) = hetvec_ctor Ts es.
Proof.
  induction Ts as [|T Ts' IHTs]; intros es.
  - destruct es; reflexivity.
  - cbn [hetvec_ctor_args hetvec_ctor].
    induction es as [|[U u] rest IHes]; [reflexivity|].
    cbn [map hetvec_ctor_args_level hetvec_ctor_level].
    destruct (ty_eq_dec U T) as [e|n].
    + rewrite IHes. reflexivity.
    + change (Element (existT den U u) :: map Element rest)
        with (map Element (existT den U u :: rest)).
      rewrite IHTs. reflexivity.
Qed.

(** An object of class [hetvec<>] behind the elements is accepted and
    adds nothing. *)
Lemma hetvec_ctor_args_trailing (Ts : list ty) :
  forall es : list (elem den),
    hetvec_ctor_args Ts (map Element es ++ [Empty_hetvec])
    = hetvec_ctor Ts es.
Proof.
  induction Ts as [|T Ts' IHTs]; intros es.
  - destruct es; reflexivity.
  - cbn [hetvec_ctor_args hetvec_ctor].
    induction es as [|[U u] rest IHes].
    + cbn [map app hetvec_ctor_args_level hetvec_ctor_level].
      pose proof (IHTs []) as E. cbn [map app] in E.
      rewrite E, hetvec_ctor_nil. reflexivity.
    + cbn [map app hetvec_ctor_args_level hetvec_ctor_level].
      destruct (ty_eq_dec U T) as [e|n].
      * rewrite IHes. reflexivity.
      * change (Element (existT den U u) :: map Element rest ++ [Empty_hetvec])
          with (map Element (existT den U u :: rest) ++ [Empty_hetvec]).
        rewrite IHTs. reflexivity.
Qed.

(** An accepted argument list consists of elements, with at most one
    object of class [hetvec<>], in the last place. *)
Lemma hetvec_ctor_args_shape (Ts : list ty) :
  forall (us : list (argument den)) (hv : hetvec den Ts),
    hetvec_ctor_args Ts us = Some hv ->
    us = map Element (argument_elements us)
    \/ us = map Element (argument_elements us) ++ [Empty_hetvec].
Proof.
  induction Ts as [|T Ts' IHTs]; intros us hv H.
  - destruct us as [|[e|] [|a us']]; try discriminate; auto.
  - cbn [hetvec_ctor_args] in H. revert hv H.
    induction us as [|[[U u]|] rest IHus]; intros hv H;
      cbn [hetvec_ctor_args_level] in H.
    + left; reflexivity.
    + destruct (ty_eq_dec U T) as [e|n].
      * destruct (hetvec_ctor_args_level T Ts' (hetvec_ctor_args Ts') rest)
          as [this|] eqn:E; [|discriminate].
        cbn [argument_elements map app].
        destruct (IHus this eq_refl) as [Hs|Hs]; [left | right];
          f_equal; exact Hs.
      * match type of H with
        | match ?c with _ => _ end = _ => destruct c as [b|] eqn:E
        end; [|discriminate].
        exact (IHTs _ b E).
    + match type of H with
      | match ?c with _ => _ end = _ => destruct c as [b|] eqn:E
      end; [|discriminate].
      exact (IHTs _ b E).
Qed.

Lemma argument_elements_map (es : list (elem den)) :
  argument_elements (map Element es) = es.
Proof.
  induction es as [|e es IH]; simpl; [reflexivity | f_equal; exact IH].
Qed.

Lemma argument_elements_trailing (es : list (elem den)) :
  argument_elements (map Element es ++ [Empty_hetvec]) = es.
Proof.
  induction es as [|e es IH]; simpl; [reflexivity | f_equal; exact IH].
Qed.

(** What an accepted constructor call builds is what [hetvec_ctor] builds
    from the elements among its arguments. *)
Lemma hetvec_ctor_args_spec (Ts : list ty) (us : list (argument den))
      (hv : hetvec den Ts) :
  hetvec_ctor_args Ts us = Some hv ->
  hetvec_ctor Ts (argument_elements us) = Some hv.
Proof.
  intros H. destruct (hetvec_ctor_args_shape Ts us hv H) as [E|E];
    rewrite E in H.
  - rewrite hetvec_ctor_args_elements in H. exact H.
  - rewrite hetvec_ctor_args_trailing in H. exact H.
Qed.


Lemma concat_map_rev {A : Type} (ls : list (list A)) :
  Permutation (concat (map (@rev A) ls)) (concat ls).
Proof.
  induction ls as [|l ls IH]; simpl; [constructor|].
  apply Permutation_app; [symmetry; apply Permutation_rev | exact IH].
Qed.

(** X5: a constructed collection holds exactly the elements among its
    constructor arguments; an object of class [hetvec<>] in the last
    place is the only other argument there can be, and adds nothing. *)
Theorem constructor_stores_exactly
        (Ts : list ty) (us : list (argument den)) (hv : hetvec den Ts) :
  hetvec_ctor_args Ts us = Some hv ->
  let es := argument_elements us in
  Permutation (elements Ts hv) es
  /\ count Ts hv = length es
  /\ size Ts hv = (Z.of_nat (length es) mod 2 ^ SIZE_WIDTH)%Z
  /\ (us = map Element es \/ us = map Element es ++ [Empty_hetvec])
  /\ (length us = count Ts hv \/ length us = count Ts hv + 1).
Proof.
  intros H es.
  pose proof (hetvec_ctor_args_spec Ts us hv H) as Hc. fold es in Hc.
  assert (P : Permutation (elements Ts hv) es).
  { pose proof (hetvec_ctor_grouped Ts es hv Hc) as E.
    unfold elements. rewrite E. symmetry. apply concat_map_rev. }
  assert (C : count Ts hv = length es)
    by (rewrite count_elements; apply Permutation_length, P).
  pose proof (hetvec_ctor_args_shape Ts us hv H) as Hs. fold es in Hs.
  split; [exact P|]. split; [exact C|].
  split; [rewrite size_spec, C; reflexivity|].
  split; [exact Hs|].
  rewrite C. destruct Hs as [Hs|Hs]; [left | right]; rewrite Hs at 1.
  - apply length_map.
  - rewrite length_app, length_map. reflexivity.
Qed.

(** ** How many invocations a traversal makes *)

Lemma ordered_pairs_double_length {A : Type} (l : list A) :
  2 * length (ordered_pairs l) = length l * (length l - 1).
Proof.
  induction l as [|a l IH]; simpl; [reflexivity|].
  rewrite length_app, length_map, Nat.sub_0_r.
  destruct (length l) as [|n]; simpl in *; [lia|].
  rewrite Nat.sub_0_r in IH. nia.
Qed.

Lemma forwarded_length (ps : list (list (elem den))) (p : list (elem den)) :
  length (flat_map (cross_with ps) p) = length p * length (concat ps).
Proof.
  induction p as [|t p IH]; simpl; [reflexivity|].
  rewrite length_app, IH, cross_with_concat, length_map. reflexivity.
Qed.

(** [hetvec<>::f] is called once for every two stored elements. *)
Lemma pairings_double_length (ps : list (list (elem den))) :
  2 * length (pairings ps)
  = length (concat ps) * (length (concat ps) - 1).
Proof.
  induction ps as [|p ps IH]; simpl; [reflexivity|].
  rewrite !length_app, forwarded_length.
  pose proof (ordered_pairs_double_length (map subscripted p)) as Hp.
  rewrite length_map in Hp.
  destruct (length p) as [|a], (length (concat ps)) as [|r];
    simpl in *; rewrite ?Nat.sub_0_r in *; nia.
Qed.

Lemma expand_nil_iff (l : list (elem den * elem den)) :
  flat_map expand l = [] <-> l = [].
Proof.
  split; [|intros ->; reflexivity].
  destruct l as [|q l]; [reflexivity|]. simpl. unfold expand at 1.
  destruct (ty_eq_dec (tag (fst q)) (tag (snd q))); discriminate.
Qed.

(** X6: a traversal invokes no handler at all exactly when the collection holds
    at most one element. *)
Theorem traversal_silent_iff_at_most_one (Ts : list ty) (hv : hetvec den Ts) :
  invocations Ts hv = [] <-> count Ts hv <= 1.
Proof.
  rewrite invocations_spec, expand_nil_iff, count_elements. unfold elements.
  pose proof (pairings_double_length (parts Ts hv)) as H.
  split.
  - intros E. rewrite E in H. simpl in H.
    destruct (length (concat (parts Ts hv))) as [|[|n]]; simpl in H; lia.
  - intros Hn. apply length_zero_iff_nil.
    destruct (length (concat (parts Ts hv))) as [|[|n]]; simpl in H; lia.
Qed.

(** X7: for a collection small enough for [size_t], [empty()] answers [true]
    exactly when no element is stored, and then a traversal invokes no
    handler. *)
Theorem empty_iff_no_elements
        (T : ty) (Ts : list ty) (hv : hetvec den (T :: Ts)) :
  (Z.of_nat (count (T :: Ts) hv) <= SIZE_MAX)%Z ->
  (empty T Ts hv = true <-> elements (T :: Ts) hv = [])
  /\ (empty T Ts hv = true <-> forall i, part (T :: Ts) hv i = [])
  /\ (empty T Ts hv = true -> invocations (T :: Ts) hv = []).
Proof.
  intros Hfit.
  assert (E : empty T Ts hv = true <-> count (T :: Ts) hv = 0).
  { unfold empty. rewrite (size_fits (T :: Ts) hv Hfit), Z.eqb_eq. lia. }
  assert (E1 : empty T Ts hv = true <-> elements (T :: Ts) hv = []).
  { rewrite E, count_elements. apply length_zero_iff_nil. }
  split; [exact E1|]. split.
  - rewrite E1. unfold elements, part. generalize (parts (T :: Ts) hv) as ps.
    intros ps. split.
    + intros Hc i. revert i.
      induction ps as [|p ps IH]; intros i; simpl in *.
      * destruct i; reflexivity.
      * apply app_eq_nil in Hc. destruct Hc as [-> Hc].
        destruct i; [reflexivity | apply IH, Hc].
    + intros Hall. induction ps as [|p ps IH]; simpl; [reflexivity|].
      rewrite (Hall 0 : p = []). simpl. apply IH.
      intros i. apply (Hall (S i)).
  - intros He. apply traversal_silent_iff_at_most_one.
    apply E in He. lia.
Qed.

Lemma expand_cross_length (l : list (elem den * elem den)) :
  (forall q, In q l -> tag (fst q) <> tag (snd q)) ->
  length (flat_map expand l) = 2 * length l.
Proof.
  induction l as [|q l IH]; intros H; simpl; [reflexivity|].
  rewrite length_app, IH by (intros; apply H; right; assumption).
  unfold expand.
  destruct (ty_eq_dec (tag (fst q)) (tag (snd q))) as [e|n]; simpl; [|lia].
  exfalso. apply (H q); [left; reflexivity | exact e].
Qed.

Lemma invocation_count_parts (Ts : list ty) (ps : list (list (elem den))) :
  well_tagged Ts ps -> NoDup Ts ->
  length (flat_map expand (pairings ps))
  + list_sum (map (fun p => choose2 (length p)) ps)
  = length (concat ps) * (length (concat ps) - 1).
Proof.
  induction 1 as [|T p Ts' ps' Hp Hps IH]; intros Hnd; [reflexivity|].
  inversion Hnd as [|? ? Hfresh Hnd']; subst.
  specialize (IH Hnd').
  cbn [pairings map list_sum concat].
  rewrite !flat_map_app, !length_app.
  rewrite (intra_expand _ _ (subscripted_homogeneous T p Hp)).
  rewrite ordered_pairs_length, length_map.
  rewrite expand_cross_length, forwarded_length.
  - pose proof (ordered_pairs_double_length p) as H2.
    rewrite ordered_pairs_length in H2.
    destruct (length p) as [|a], (length (concat ps')) as [|r];
      simpl in *; rewrite ?Nat.sub_0_r in *; nia.
  - intros q Hq. apply in_flat_map in Hq. destruct Hq as [t [Ht Hq]].
    rewrite cross_with_concat in Hq. apply in_map_iff in Hq.
    destruct Hq as [w [<- Hw]]. simpl. rewrite (Hp t Ht).
    intros E. apply Hfresh. rewrite <- E.
    eapply well_tagged_concat; eassumption.
Qed.

(** X8: over distinct declared types a traversal of [n] elements makes
    [n * (n - 1)] invocations less one for every pair of elements of the
    same type. *)
Theorem invocation_count (Ts : list ty) (hv : hetvec den Ts) :
  NoDup Ts ->
  length (invocations Ts hv)
  + list_sum (map (fun p => choose2 (length p)) (parts Ts hv))
  = count Ts hv * (count Ts hv - 1).
Proof.
  intros Hnd. rewrite invocations_spec, count_elements.
  apply (invocation_count_parts Ts); [apply parts_well_tagged | exact Hnd].
Qed.

(** ** The whole traversal as a multiset of invocations *)

Lemma cross_typed_swap (c : elem den * elem den) :
  cross_typed (swap c) = cross_typed c.
Proof.
  unfold cross_typed, swap; simpl.
  destruct (ty_eq_dec (tag (snd c)) (tag (fst c))),
           (ty_eq_dec (tag (fst c)) (tag (snd c))); congruence.
Qed.

Lemma filter_cross_expand (l : list (elem den * elem den)) :
  filter cross_typed (flat_map expand l)
  = flat_map (fun q => [q; swap q]) (filter cross_typed l).
Proof.
  induction l as [|q l IH]; simpl; [reflexivity|].
  rewrite filter_app, IH. unfold expand.
  pose proof (cross_typed_swap q) as Hs. unfold cross_typed in *.
  destruct (ty_eq_dec (tag (fst q)) (tag (snd q))); simpl.
  - unfold cross_typed.
    destruct (ty_eq_dec (tag (fst q)) (tag (snd q))); [reflexivity|].
    contradiction.
  - unfold cross_typed.
    destruct (ty_eq_dec (tag (fst q)) (tag (snd q))); [contradiction|].
    simpl in Hs. rewrite Hs. reflexivity.
Qed.

Lemma filter_same_expand (l : list (elem den * elem den)) :
  filter (fun c => negb (cross_typed c)) (flat_map expand l)
  = filter (fun c => negb (cross_typed c)) l.
Proof.
  induction l as [|q l IH]; simpl; [reflexivity|].
  rewrite filter_app, IH. unfold expand.
  pose proof (cross_typed_swap q) as Hs.
  destruct (cross_typed q) eqn:Eq; unfold cross_typed in Eq;
    destruct (ty_eq_dec (tag (fst q)) (tag (snd q))); try discriminate;
    simpl.
  - fold (cross_typed q). rewrite Hs.
    unfold cross_typed.
    destruct (ty_eq_dec (tag (fst q)) (tag (snd q))); [contradiction|].
    reflexivity.
  - unfold cross_typed.
    destruct (ty_eq_dec (tag (fst q)) (tag (snd q))); [|contradiction].
    reflexivity.
Qed.

Lemma Permutation_filter_compat {A : Type} (g : A -> bool) (l l' : list A) :
  Permutation l l' -> Permutation (filter g l) (filter g l').
Proof.
  induction 1 as [|x l l' _ IH|x y l|l l' l'' _ IH1 _ IH2]; simpl.
  - constructor.
  - destruct (g x); [apply perm_skip|]; exact IH.
  - destruct (g x), (g y); try reflexivity. apply perm_swap.
  - etransitivity; eassumption.
Qed.

Lemma Permutation_filter_split {A : Type} (g : A -> bool) (l : list A) :
  Permutation l (filter (fun x => negb (g x)) l ++ filter g l).
Proof.
  induction l as [|x l IH]; simpl; [constructor|].
  destruct (g x); simpl.
  - rewrite IH at 1. apply Permutation_middle.
  - apply perm_skip, IH.
Qed.

Lemma mirrored_closure (l : list (elem den * elem den)) :
  Permutation (flat_map (fun q => [q; swap q]) l) (l ++ map swap l).
Proof.
  induction l as [|q l IH]; simpl; [constructor|].
  apply perm_skip. rewrite IH. apply Permutation_middle.
Qed.

Lemma filter_cross_map_swap (l : list (elem den * elem den)) :
  filter cross_typed (map swap l) = map swap (filter cross_typed l).
Proof.
  induction l as [|q l IH]; simpl; [reflexivity|].
  rewrite cross_typed_swap, IH. destruct (cross_typed q); reflexivity.
Qed.

Lemma list_prod_app_l {A B : Type} (l1 l2 : list A) (l' : list B) :
  list_prod (l1 ++ l2) l' = list_prod l1 l' ++ list_prod l2 l'.
Proof.
  induction l1 as [|a l1 IH]; simpl; [reflexivity|].
  rewrite IH, app_assoc. reflexivity.
Qed.

Lemma list_prod_app_r {A B : Type} (l : list A) (l1 l2 : list B) :
  Permutation (list_prod l (l1 ++ l2)) (list_prod l l1 ++ list_prod l l2).
Proof.
  induction l as [|a l IH]; simpl; [constructor|].
  rewrite map_app, IH, <- !app_assoc.
  apply Permutation_app_head. rewrite !app_assoc.
  apply Permutation_app_tail, Permutation_app_comm.
Qed.

Lemma forwarded_is_mirrored_product
      (ps : list (list (elem den))) (p : list (elem den)) :
  flat_map (cross_with ps) p = map swap (list_prod p (concat ps)).
Proof.
  rewrite <- flat_map_mirrored. apply flat_map_ext_in.
  intros t _. apply cross_with_concat.
Qed.

(** Elements of one partition have one type. *)
Lemma homogeneous_no_cross (T : ty) (p : list (elem den))
      (l : list (elem den * elem den)) :
  (forall e, In e p -> tag e = T) ->
  (forall q, In q l -> In (fst q) p /\ In (snd q) p) ->
  filter cross_typed l = [].
Proof.
  intros Hp Hl. apply filter_none. intros q Hq.
  destruct (Hl q Hq) as [H1 H2]. unfold cross_typed.
  destruct (ty_eq_dec (tag (fst q)) (tag (snd q))) as [|n]; [reflexivity|].
  exfalso. apply n. rewrite (Hp _ H1), (Hp _ H2). reflexivity.
Qed.

Lemma cross_coverage_parts (Ts : list ty) (ps : list (list (elem den))) :
  well_tagged Ts ps ->
  Permutation (filter cross_typed (flat_map expand (pairings ps)))
              (filter cross_typed (list_prod (concat ps) (concat ps))).
Proof.
  induction 1 as [|T p Ts' ps' Hp Hps IH]; [constructor|].
  cbn [pairings concat].
  set (rest := concat ps') in *.
  set (X := filter cross_typed (list_prod p rest)).
  assert (L : Permutation
                (filter cross_typed (flat_map expand (pairings (p :: ps'))))
                (map swap X ++ X
                 ++ filter cross_typed (list_prod rest rest))).
  { cbn [pairings]. rewrite !flat_map_app, !filter_app, !filter_cross_expand.
    rewrite (homogeneous_no_cross _ _ (ordered_pairs (map subscripted p))
               (subscripted_homogeneous T p Hp)).
    2:{ intros [a b] Hq. apply ordered_pairs_In in Hq. exact Hq. }
    simpl. rewrite forwarded_is_mirrored_product, filter_cross_map_swap.
    fold rest. fold X. rewrite mirrored_closure.
    rewrite map_map.
    rewrite (map_ext (fun x => swap (swap x)) (fun x => x) swap_involutive).
    rewrite map_id, <- app_assoc.
    apply Permutation_app_head, Permutation_app_head.
    rewrite <- filter_cross_expand. exact IH. }
  assert (R : Permutation
                (filter cross_typed (list_prod (p ++ rest) (p ++ rest)))
                (X ++ map swap X
                 ++ filter cross_typed (list_prod rest rest))).
  { rewrite list_prod_app_l, filter_app.
    rewrite (Permutation_filter_compat cross_typed _ _
               (list_prod_app_r p p rest)).
    rewrite (Permutation_filter_compat cross_typed _ _
               (list_prod_app_r rest p rest)).
    rewrite !filter_app.
    rewrite (homogeneous_no_cross T p (list_prod p p) Hp).
    2:{ intros [a b] Hq. apply in_prod_iff in Hq. exact Hq. }
    cbn [app]. fold X.
    apply Permutation_app_head, Permutation_app_tail.
    unfold X. rewrite <- filter_cross_map_swap.
    apply Permutation_filter_compat. symmetry. apply list_prod_mirrored. }
  rewrite L, R, !app_assoc.
  apply Permutation_app_tail, Permutation_app_comm.
Qed.

(** X9: whatever the declared types, the invocations on two arguments of
    different types are exactly the ordered pairs of differently typed
    stored elements: each such pair of elements is presented to the visitor
    once in either order. *)
Theorem cross_typed_pairs_all_covered (Ts : list ty) (hv : hetvec den Ts) :
  Permutation
    (filter cross_typed (invocations Ts hv))
    (filter cross_typed (list_prod (elements Ts hv) (elements Ts hv))).
Proof.
  rewrite invocations_spec.
  apply (cross_coverage_parts Ts), parts_well_tagged.
Qed.

Lemma same_coverage_parts (Ts : list ty) (ps : list (list (elem den))) :
  well_tagged Ts ps -> NoDup Ts ->
  filter (fun c => negb (cross_typed c)) (flat_map expand (pairings ps))
  = flat_map (fun p => ordered_pairs (map subscripted p)) ps.
Proof.
  rewrite filter_same_expand.
  induction 1 as [|T p Ts' ps' Hp Hps IH]; intros Hnd; [reflexivity|].
  inversion Hnd as [|? ? Hfresh Hnd']; subst.
  cbn [pairings flat_map]. rewrite !filter_app, (IH Hnd').
  f_equal.
  - apply filter_all. intros [a b] Hq. apply ordered_pairs_In in Hq.
    destruct Hq as [Ha Hb]. unfold cross_typed; simpl.
    rewrite (subscripted_homogeneous T p Hp a Ha),
            (subscripted_homogeneous T p Hp b Hb).
    destruct (ty_eq_dec (subscript_ty T) (subscript_ty T));
      [reflexivity | contradiction].
  - rewrite filter_none; [reflexivity|].
    intros q Hq. apply in_flat_map in Hq. destruct Hq as [t [Ht Hq]].
    rewrite cross_with_concat in Hq. apply in_map_iff in Hq.
    destruct Hq as [w [<- Hw]]. unfold cross_typed; simpl.
    destruct (ty_eq_dec (tag w) (tag t)) as [e|]; [|reflexivity].
    exfalso. apply Hfresh. rewrite <- (Hp t Ht), <- e.
    eapply well_tagged_concat; eassumption.
Qed.

Lemma traversal_multiset_parts (Ts : list ty) (hv : hetvec den Ts) :
  NoDup Ts ->
  Permutation
    (invocations Ts hv)
    (flat_map (fun p => ordered_pairs (map subscripted p)) (parts Ts hv)
     ++ filter cross_typed (list_prod (elements Ts hv) (elements Ts hv))).
Proof.
  intros Hnd.
  rewrite (Permutation_filter_split cross_typed (invocations Ts hv)).
  apply Permutation_app.
  - rewrite invocations_spec.
    rewrite (same_coverage_parts Ts _ (parts_well_tagged Ts hv) Hnd).
    reflexivity.
  - rewrite invocations_spec.
    apply (cross_coverage_parts Ts), parts_well_tagged.
Qed.

(** X10: over distinct declared types the invocations of a traversal are, as a
    multiset, the pairs (earlier, later) of subscript expressions inside
    each partition together with all ordered pairs of differently typed
    elements; the former are the invocations on two arguments of one
    type, and they come in the order of the partitions and of the
    loops. *)
Theorem traversal_as_multiset (Ts : list ty) (hv : hetvec den Ts) :
  NoDup Ts ->
  Permutation
    (invocations Ts hv)
    (flat_map (fun p => ordered_pairs (map subscripted p)) (parts Ts hv)
     ++ filter cross_typed (list_prod (elements Ts hv) (elements Ts hv)))
  /\ filter (fun c => negb (cross_typed c)) (invocations Ts hv)
     = flat_map (fun p => ordered_pairs (map subscripted p)) (parts Ts hv).
Proof.
  intros Hnd. split; [apply traversal_multiset_parts, Hnd|].
  rewrite invocations_spec.
  apply (same_coverage_parts Ts); [apply parts_well_tagged | exact Hnd].
Qed.

(** ** What the handlers are given *)

Lemma NoDup_app_disjoint {A : Type} (l1 l2 : list A) (x : A) :
  NoDup (l1 ++ l2) -> In x l1 -> In x l2 -> False.
Proof.
  induction l1 as [|a l1 IH]; simpl; intros Hnd H1 H2; [contradiction|].
  inversion Hnd as [|? ? Ha Hnd']; subst.
  destruct H1 as [->|H1].
  - apply Ha, in_or_app. right. exact H2.
  - exact (IH Hnd' H1 H2).
Qed.

Lemma ordered_pairs_distinct {A : Type} (l : list A) (a b : A) :
  NoDup l -> In (a, b) (ordered_pairs l) -> a <> b.
Proof.
  induction 1 as [|x l Hx Hl IH]; simpl; [contradiction|].
  intros H. apply in_app_or in H. destruct H as [H|H].
  - apply in_map_iff in H. destruct H as [y [E Hy]].
    injection E as <- <-. intros ->. contradiction.
  - exact (IH H).
Qed.

Lemma ordered_pairs_map {A B : Type} (g : A -> B) (l : list A) :
  ordered_pairs (map g l)
  = map (fun q => (g (fst q), g (snd q))) (ordered_pairs l).
Proof.
  induction l as [|a l IH]; simpl; [reflexivity|].
  rewrite map_app, !map_map, IH. reflexivity.
Qed.

(** A call of [hetvec<>::f] is made on two stored elements of different
    partitions, or on the subscripts of two elements of one partition. *)
Lemma pairings_stored (Ts : list ty) (ps : list (list (elem den))) :
  well_tagged Ts ps ->
  forall q, In q (pairings ps) ->
  exists a b,
    In a (concat ps) /\ In b (concat ps)
    /\ (q = (a, b) \/ (tag a = tag b /\ q = (subscripted a, subscripted b)))
    /\ (NoDup (concat ps) -> a <> b).
Proof.
  induction 1 as [|T p Ts' ps' Hp _ IH]; simpl; intros q Hq; [contradiction|].
  apply in_app_or in Hq. destruct Hq as [Hq|Hq].
  - rewrite ordered_pairs_map in Hq. apply in_map_iff in Hq.
    destruct Hq as [[a b] [<- Hq]]. simpl.
    pose proof (ordered_pairs_In _ _ _ _ Hq) as [Ha Hb].
    exists a, b. split; [apply in_or_app; left; exact Ha|].
    split; [apply in_or_app; left; exact Hb|]. split.
    + right. split; [|reflexivity]. rewrite (Hp a Ha), (Hp b Hb). reflexivity.
    + intros Hnd. apply (ordered_pairs_distinct p); [|exact Hq].
      eapply NoDup_app_remove_r. exact Hnd.
  - apply in_app_or in Hq. destruct Hq as [Hq|Hq].
    + apply in_flat_map in Hq. destruct Hq as [t [Ht Hq]].
      rewrite cross_with_concat in Hq. apply in_map_iff in Hq.
      destruct Hq as [w [<- Hw]].
      exists w, t. split; [apply in_or_app; right; exact Hw|].
      split; [apply in_or_app; left; exact Ht|]. split; [left; reflexivity|].
      intros Hnd ->.
      exact (NoDup_app_disjoint p (concat ps') t Hnd Ht Hw).
    + destruct (IH q Hq) as [a [b [Ha [Hb [Hab Hd]]]]].
      exists a, b. split; [apply in_or_app; right; exact Ha|].
      split; [apply in_or_app; right; exact Hb|]. split; [exact Hab|].
      intros Hnd. apply Hd. eapply NoDup_app_remove_l. exact Hnd.
Qed.

(** X11: every invocation is made for two stored elements of declared
    types: on the two elements themselves, or, when both are of one type,
    on their subscript expressions; and when the stored elements are
    pairwise different, never for one element paired with itself. *)
Theorem invocation_arguments_are_stored
        (Ts : list ty) (hv : hetvec den Ts) (c : elem den * elem den) :
  In c (invocations Ts hv) ->
  exists a b : elem den,
    In a (elements Ts hv) /\ In b (elements Ts hv)
    /\ In (tag a) Ts /\ In (tag b) Ts
    /\ (c = (a, b) \/ (tag a = tag b /\ c = (subscripted a, subscripted b)))
    /\ (NoDup (elements Ts hv) -> a <> b).
Proof.
  intros Hc. rewrite invocations_spec in Hc.
  apply in_flat_map in Hc. destruct Hc as [q [Hq Hc]].
  destruct (pairings_stored Ts _ (parts_well_tagged Ts hv) q Hq)
    as [a [b [Ha [Hb [Hab Hd]]]]].
  pose proof (well_tagged_concat Ts _ a (parts_well_tagged Ts hv) Ha) as Ta.
  pose proof (well_tagged_concat Ts _ b (parts_well_tagged Ts hv) Hb) as Tb.
  unfold elements.
  apply expand_In in Hc. destruct Hc as [-> | ->].
  - exists a, b. repeat split; assumption.
  - exists b, a. repeat split; try assumption.
    + destruct Hab as [-> | [E ->]]; [left; reflexivity|].
      right. split; [symmetry; exact E | reflexivity].
    + intros Hnd E. apply (Hd Hnd). symmetry. exact E.
Qed.

(** ** Order of storage inside the partitions *)

Lemma Forall2_Permutation_concat {A : Type} (ls ls' : list (list A)) :
  Forall2 (@Permutation A) ls ls' -> Permutation (concat ls) (concat ls').
Proof.
  induction 1 as [|l l' ls ls' Hl _ IH]; simpl; [constructor|].
  apply Permutation_app; assumption.
Qed.

Lemma Permutation_list_prod {A B : Type} (l1 l1' : list A) (l2 l2' : list B) :
  Permutation l1 l1' -> Permutation l2 l2' ->
  Permutation (list_prod l1 l2) (list_prod l1' l2').
Proof.
  intros H1 H2. rewrite <- !flat_map_pair_list_prod.
  transitivity (flat_map (fun u => map (pair u) l2') l1).
  - clear H1. induction l1 as [|a l1 IH]; simpl; [constructor|].
    apply Permutation_app; [apply Permutation_map, H2 | exact IH].
  - apply Permutation_flat_map, H1.
Qed.

Lemma expand_length (l : list (elem den * elem den)) :
  length (flat_map expand l) = length l + length (filter cross_typed l).
Proof.
  induction l as [|q l IH]; simpl; [reflexivity|].
  rewrite length_app, IH. unfold expand, cross_typed.
  destruct (ty_eq_dec (tag (fst q)) (tag (snd q))); simpl; lia.
Qed.

Lemma mirrored_pairs_length (l : list (elem den * elem den)) :
  length (flat_map (fun q => [q; swap q]) l) = 2 * length l.
Proof. induction l as [|q l IH]; simpl; [reflexivity | rewrite IH; lia]. Qed.

Lemma invocations_double_length (Ts : list ty) (hv : hetvec den Ts) :
  2 * length (invocations Ts hv)
  = count Ts hv * (count Ts hv - 1)
    + length (filter cross_typed (invocations Ts hv)).
Proof.
  rewrite invocations_spec, filter_cross_expand, mirrored_pairs_length.
  rewrite expand_length, count_elements. unfold elements.
  pose proof (pairings_double_length (parts Ts hv)). lia.
Qed.

(** X12: storing the same elements in another order inside the partitions
    changes neither the multiset of invocations on differently typed
    arguments nor the number of invocations. *)
Theorem storage_order_invariance (Ts : list ty) (hv1 hv2 : hetvec den Ts) :
  Forall2 (@Permutation (elem den)) (parts Ts hv1) (parts Ts hv2) ->
  Permutation (filter cross_typed (invocations Ts hv1))
              (filter cross_typed (invocations Ts hv2))
  /\ length (invocations Ts hv1) = length (invocations Ts hv2).
Proof.
  intros H.
  pose proof (Forall2_Permutation_concat _ _ H) as Hall.
  assert (P : Permutation (filter cross_typed (invocations Ts hv1))
                          (filter cross_typed (invocations Ts hv2))).
  { rewrite !invocations_spec.
    rewrite (cross_coverage_parts Ts _ (parts_well_tagged Ts hv1)).
    rewrite (cross_coverage_parts Ts _ (parts_well_tagged Ts hv2)).
    apply Permutation_filter_compat, Permutation_list_prod; exact Hall. }
  split; [exact P|].
  pose proof (invocations_double_length Ts hv1) as L1.
  pose proof (invocations_double_length Ts hv2) as L2.
  rewrite !count_elements in *. unfold elements in *.
  rewrite (Permutation_length P), (Permutation_length Hall) in L1. lia.
Qed.

(** ** Insertion followed by a traversal *)

Lemma nth_split_parts {A : Type} (ls : list (list A)) (i : nat) :
  i < length ls ->
  ls = firstn i ls ++ nth i ls [] :: skipn (S i) ls.
Proof.
  revert i; induction ls as [|l ls IH]; intros i Hi; simpl in Hi; [lia|].
  destruct i as [|i]; [reflexivity|].
  cbn [firstn nth skipn app]. f_equal. apply IH. lia.
Qed.

Lemma ordered_pairs_snoc {A : Type} (l : list A) (u : A) :
  Permutation (ordered_pairs (l ++ [u]))
              (ordered_pairs l ++ map (fun a => (a, u)) l).
Proof.
  induction l as [|a l IH]; simpl; [constructor|].
  rewrite map_app, IH, <- !app_assoc. apply Permutation_app_head.
  simpl. apply Permutation_middle.
Qed.

Lemma flat_map_map {A B C : Type} (g : A -> B) (h : B -> list C)
      (l : list A) :
  flat_map h (map g l) = flat_map (fun x => h (g x)) l.
Proof.
  induction l as [|x l IH]; simpl; [reflexivity | rewrite IH; reflexivity].
Qed.

Lemma list_prod_singleton_r {A B : Type} (l : list A) (u : B) :
  list_prod l [u] = map (fun a => (a, u)) l.
Proof.
  induction l as [|a l IH]; simpl; [reflexivity | rewrite IH; reflexivity].
Qed.

(** The invocations made for [u] and the elements [l]. *)
Lemma calls_between_with (u : elem den) (l : list (elem den)) :
  Permutation
    (flat_map (fun e => calls_between e u) l)
    (map (fun a => (subscripted a, subscripted u)) (filter (tag_is (tag u)) l)
     ++ filter cross_typed (map (fun a => (a, u)) l)
     ++ filter cross_typed (map (pair u) l)).
Proof.
  induction l as [|a l IH]; [constructor|].
  cbn [flat_map filter map].
  destruct (ty_eq_dec (tag a) (tag u)) as [e|n] eqn:E1.
  - assert (C1 : cross_typed (a, u) = false)
      by (unfold cross_typed; simpl; rewrite E1; reflexivity).
    assert (C2 : cross_typed (u, a) = false)
      by (unfold cross_typed; simpl;
          destruct (ty_eq_dec (tag u) (tag a)); congruence).
    assert (C3 : tag_is (tag u) a = true) by (apply tag_is_true; exact e).
    assert (C4 : calls_between a u = [(subscripted a, subscripted u)])
      by (unfold calls_between; rewrite E1; reflexivity).
    rewrite C1, C2, C3, C4. cbn [app map]. apply perm_skip, IH.
  - assert (C1 : cross_typed (a, u) = true)
      by (unfold cross_typed; simpl; rewrite E1; reflexivity).
    assert (C2 : cross_typed (u, a) = true)
      by (unfold cross_typed; simpl;
          destruct (ty_eq_dec (tag u) (tag a)); congruence).
    assert (C3 : tag_is (tag u) a = false) by (apply tag_is_false; exact n).
    assert (C4 : calls_between a u = [(a, u); (u, a)])
      by (unfold calls_between; rewrite E1; reflexivity).
    rewrite C1, C2, C3, C4. cbn [app]. rewrite IH.
    set (M := map (fun a => (subscripted a, subscripted u))
                  (filter (tag_is (tag u)) l)).
    set (D1 := filter cross_typed (map (fun a => (a, u)) l)).
    set (D2 := filter cross_typed (map (pair u) l)).
    transitivity ((a, u) :: (M ++ D1) ++ (u, a) :: D2).
    + apply perm_skip. rewrite (app_assoc M D1 D2). apply Permutation_middle.
    + rewrite <- app_assoc. cbn [app]. apply Permutation_middle.
Qed.

Lemma cross_product_snoc (u : elem den) (l : list (elem den)) :
  Permutation
    (filter cross_typed (list_prod (l ++ [u]) (l ++ [u])))
    (filter cross_typed (list_prod l l)
     ++ filter cross_typed (map (fun a => (a, u)) l)
     ++ filter cross_typed (map (pair u) l)).
Proof.
  rewrite list_prod_app_l, filter_app.
  rewrite (Permutation_filter_compat cross_typed _ _
             (list_prod_app_r l l [u])).
  rewrite filter_app, list_prod_singleton_r, <- app_assoc.
  apply Permutation_app_head, Permutation_app_head.
  simpl. rewrite app_nil_r, map_app, filter_app. simpl.
  unfold cross_typed at 2. simpl.
  destruct (ty_eq_dec (tag u) (tag u)); [|contradiction].
  rewrite app_nil_r. reflexivity.
Qed.

(** X13: over distinct declared types, inserting [u] adds to the invocations of
    a traversal exactly those made for [u] and every element stored
    before: for each element of the type of [u] one invocation on the two
    subscript expressions, for each element of another type two mirrored
    invocations on the two elements. *)
Theorem push_back_adds_pairs_with_new_element
        (Ts : list ty) (hv hv' : hetvec den Ts) (U : ty) (u : den U) :
  NoDup Ts -> push_back Ts hv U u = Some hv' ->
  Permutation
    (invocations Ts hv')
    (invocations Ts hv
     ++ flat_map (fun e => calls_between e (existT den U u))
                 (elements Ts hv)).
Proof.
  intros Hnd H.
  assert (HU : In U Ts).
  { destruct (in_dec ty_eq_dec U Ts) as [HU|HU]; [exact HU|].
    rewrite (push_back_undeclared Ts hv U u HU) in H. discriminate. }
  apply In_nth_error in HU. destruct HU as [i Hi].
  assert (Hfirst : forall k, k < i -> nth_error Ts k <> Some U).
  { intros k Hk E. rewrite NoDup_nth_error in Hnd.
    assert (k = i); [|lia].
    apply Hnd; [apply nth_error_Some; congruence | congruence]. }
  destruct (push_back_parts Ts hv i U u Hi Hfirst) as [hv'' [H' Hparts]].
  assert (hv'' = hv') by congruence. subst hv''. clear H'.
  assert (Hlen : i < length (parts Ts hv)).
  { rewrite parts_length. apply nth_error_Some. congruence. }
  set (eu := existT den U u) in *.
  set (same := fun p : list (elem den) => ordered_pairs (map subscripted p)).
  assert (A1 : Permutation
                 (flat_map same (parts Ts hv'))
                 (flat_map same (parts Ts hv)
                  ++ map (fun a => (subscripted a, subscripted eu))
                         (part Ts hv i))).
  { pose proof (nth_split_parts (parts Ts hv) i Hlen) as E0.
    fold (part Ts hv i) in E0.
    remember (firstn i (parts Ts hv)) as F eqn:EF.
    remember (skipn (S i) (parts Ts hv)) as Sk eqn:ES.
    rewrite Hparts, E0.
    rewrite !flat_map_app. cbn [flat_map]. unfold same at 2 5.
    rewrite map_app. cbn [map].
    rewrite ordered_pairs_snoc, map_map, <- !app_assoc.
    apply Permutation_app_head, Permutation_app_head.
    apply Permutation_app_comm. }
  assert (A2 : Permutation
                 (filter cross_typed
                    (list_prod (elements Ts hv') (elements Ts hv')))
                 (filter cross_typed
                    (list_prod (elements Ts hv) (elements Ts hv))
                  ++ filter cross_typed
                       (map (fun a => (a, eu)) (elements Ts hv))
                  ++ filter cross_typed (map (pair eu) (elements Ts hv)))).
  { rewrite <- cross_product_snoc.
    apply Permutation_filter_compat, Permutation_list_prod;
      apply (push_back_elements Ts hv hv' U u H). }
  assert (A3 : Permutation
                 (flat_map (fun e => calls_between e eu) (elements Ts hv))
                 (map (fun a => (subscripted a, subscripted eu))
                      (part Ts hv i)
                  ++ filter cross_typed
                       (map (fun a => (a, eu)) (elements Ts hv))
                  ++ filter cross_typed (map (pair eu) (elements Ts hv)))).
  { rewrite calls_between_with. unfold elements, part.
    change (tag eu) with U.
    rewrite (filter_tag_concat Ts _ (parts_well_tagged Ts hv) Hnd i U Hi).
    reflexivity. }
  rewrite (traversal_multiset_parts Ts hv' Hnd).
  rewrite (traversal_multiset_parts Ts hv Hnd).
  fold same. rewrite A1, A2, A3, <- !app_assoc.
  apply Permutation_app_head. rewrite !app_assoc.
  apply Permutation_app_tail, Permutation_app_tail, Permutation_app_comm.
Qed.

End HetvecFacts.

(** * Results on the two programs *)

Lemma Types_distinct : NoDup Types.
Proof.
  unfold Types. repeat constructor; simpl; intuition discriminate.
Defined.

Lemma scalars_distinct : NoDup [Int; Bool].
Proof.
  repeat constructor; simpl; intuition discriminate.
Defined.

Lemma main_hv_value : main_hv = Some example_hv.
Proof. reflexivity. Qed.

(** C3: in [example.cpp] the collection holds two [Dog], one [Car], one
    [Foo] and one [Bar] when it is traversed.  The traversal prints
    "Two dogs are barking!" once, "A car hit the dog, oh no!" twice and
    "Foobar!" once, and nothing else: of its 19 handler invocations the 15
    that no exact handler matches go to the generic [f], which leaves the
    output as it is. *)
Theorem example_traversal_output :
  main_hv = Some example_hv
  /\ map (@length _) (parts Types example_hv) = [2; 1; 1; 1]
  /\ (let out := snd (perform Types example_hv MyCustomBehaviour []) in
      out = [two_dogs; car_hit_dog; car_hit_dog; foobar]
      /\ count_occ String.string_dec out two_dogs = 1
      /\ count_occ String.string_dec out car_hit_dog = 2
      /\ count_occ String.string_dec out foobar = 1
      /\ length out = 4)
  /\ (let calls := invocations Types example_hv in
      length calls = 19
      /\ length (filter (fun c => negb (has_exact_handler (tag (fst c))
                                                          (tag (snd c))))
                        calls) = 15)
  /\ (forall (T U : type_name) (a : object T) (b : object U)
             (out : list string),
         has_exact_handler T U = false ->
         fcns_f MyCustomBehaviour a b out = out)
  /\ main = Some [two_dogs; car_hit_dog; car_hit_dog; foobar; hv_is_empty].
Proof.
  split; [reflexivity|]. split; [reflexivity|].
  split; [repeat split; reflexivity|].
  split; [split; reflexivity|].
  split; [|reflexivity].
  intros T U a b out H. destruct T, U; try discriminate H; reflexivity.
Qed.

(** C2 (where the code departs from it): a [hetvec<int, bool>] into which
    [true] and [false] were inserted holds the two in its [bool]
    partition, so the pair [(true, false)] is the one pair of positions
    [p < q] of that partition.  The traversal makes one invocation, but
    not with argument types [(bool, bool)]: its arguments are the two
    subscript expressions, objects of class [std::vector<bool>::reference].
    No invocation has types [(bool, bool)], and a visitor whose handler
    for [(bool, bool)] counts its invocations, with a generic handler that
    does nothing, ends the traversal with the count it began with.  A
    [bool] paired with an [int] does reach the handlers for [bool]. *)
Theorem bool_pairs_miss_their_handler :
  let hv := scalars [] [true; false] in
  push_back_all [Int; Bool] (hetvec_default scalar_value [Int; Bool])
                [bool_ true; bool_ false] = Some hv
  /\ part [Int; Bool] hv 1 = [bool_ true; bool_ false]
  /\ ordered_pairs (part [Int; Bool] hv 1) = [(bool_ true, bool_ false)]
  /\ invocations [Int; Bool] hv
     = [(bool_reference_ true, bool_reference_ false)]
  /\ filter (typed Bool Bool) (invocations [Int; Bool] hv) = []
  /\ filter (typed Bool Bool) (invocations [Int; Bool] hv)
     <> ordered_pairs (part [Int; Bool] hv 1)
  /\ perform [Int; Bool] hv count_bool_pairs 0 = (hv, 0)
  /\ fcns_f count_bool_pairs (T := Bool) (U := Bool) true false 0 = 1
  /\ invocations [Int; Bool] (scalars [7]%Z [true])
     = [(bool_ true, int_ 7); (int_ 7, bool_ true)].
Proof.
  cbv zeta. repeat split; try reflexivity.
  intros H. vm_compute in H. discriminate H.
Qed.

(** The constructor stores equal-typed arguments back to front, where
    [push_back] keeps them in call order: [hetvec<int, bool> hv{1, 2}]
    holds [2, 1]. *)
Lemma construction_order_counterexample :
  hetvec_ctor [Int; Bool] [int_ 1; int_ 2] = Some (scalars [2; 1]%Z [])
  /\ push_back_all [Int; Bool] (hetvec_default scalar_value [Int; Bool])
                   [int_ 1; int_ 2]
     = Some (scalars [1; 2]%Z [])
  /\ hetvec_ctor [Int; Bool] [int_ 1; int_ 2]
     <> push_back_all [Int; Bool] (hetvec_default scalar_value [Int; Bool])
                      [int_ 1; int_ 2].
Proof.
  split; [reflexivity|]. split; [reflexivity|].
  intros H. vm_compute in H. discriminate H.
Qed.

(** Arguments that are not grouped in declared order have no matching
    constructor, although each of them can be inserted. *)
Lemma construction_rejects_out_of_order :
  hetvec_ctor [Int; Bool] [bool_ true; int_ 1] = None
  /\ push_back_all [Int; Bool] (hetvec_default scalar_value [Int; Bool])
                   [bool_ true; int_ 1]
     = Some (scalars [1%Z] [true]).
Proof. split; reflexivity. Qed.

(** ** The general theorems at the collections above *)

Lemma cross_pairs_both_directions_witness :
  NoDup Types /\ 0 <> 1
  /\ nth_error Types 0 = Some Dog /\ nth_error Types 1 = Some Car
  /\ (let Pi := part Types example_hv 0 in
      let Pj := part Types example_hv 1 in
      let calls_ij := filter (typed Dog Car) (invocations Types example_hv) in
      let calls_ji := filter (typed Car Dog) (invocations Types example_hv) in
      (forall (St : Type) (fcns : Fcns object St) (s : St),
          snd (perform Types example_hv fcns s)
          = fold_left (apply_call fcns) (invocations Types example_hv) s)
      /\ Permutation calls_ij (list_prod Pi Pj)
      /\ Permutation calls_ji (map swap (list_prod Pi Pj))
      /\ length calls_ij = length Pi * length Pj
      /\ length calls_ji = length Pi * length Pj
      /\ length calls_ij + length calls_ji = 2 * length Pi * length Pj
      /\ (forall u w : elem object,
             (In (u, w) calls_ij <-> In u Pi /\ In w Pj)
             /\ (In (w, u) calls_ji <-> In u Pi /\ In w Pj))
      /\ (NoDup Pi -> NoDup Pj -> NoDup calls_ij /\ NoDup calls_ji)).
Proof.
  assert (H01 : 0 <> 1) by discriminate.
  split; [exact Types_distinct|]. split; [exact H01|].
  split; [reflexivity|]. split; [reflexivity|].
  exact (cross_pairs_both_directions Types example_hv 0 1 Dog Car
           Types_distinct H01 eq_refl eq_refl).
Defined.

Lemma mirrored_invocations_adjacent_witness :
  NoDup [Int; Bool] /\ 0 < 1
  /\ nth_error [Int; Bool] 0 = Some Int /\ nth_error [Int; Bool] 1 = Some Bool
  /\ In (int_ 7) (part [Int; Bool] (scalars [7]%Z [true]) 0)
  /\ In (bool_ true) (part [Int; Bool] (scalars [7]%Z [true]) 1)
  /\ ((exists pre post,
          invocations [Int; Bool] (scalars [7]%Z [true])
          = pre ++ (bool_ true, int_ 7) :: (int_ 7, bool_ true) :: post)
      /\ (forall pre post,
             invocations [Int; Bool] (scalars [7]%Z [true])
             = pre ++ (bool_ true, int_ 7) :: post ->
             exists post', post = (int_ 7, bool_ true) :: post')
      /\ (forall pre post,
             invocations [Int; Bool] (scalars [7]%Z [true])
             = pre ++ (int_ 7, bool_ true) :: post ->
             exists pre', pre = pre' ++ [(bool_ true, int_ 7)])).
Proof.
  assert (H01 : 0 < 1) by exact (le_n 1).
  assert (Hu : In (int_ 7) (part [Int; Bool] (scalars [7]%Z [true]) 0))
    by (left; reflexivity).
  assert (Hw : In (bool_ true) (part [Int; Bool] (scalars [7]%Z [true]) 1))
    by (left; reflexivity).
  split; [exact scalars_distinct|]. split; [exact H01|].
  split; [reflexivity|]. split; [reflexivity|].
  split; [exact Hu|]. split; [exact Hw|].
  exact (mirrored_invocations_adjacent [Int; Bool] (scalars [7]%Z [true])
           0 1 Int Bool (int_ 7) (bool_ true)
           scalars_distinct H01 eq_refl eq_refl Hu Hw).
Defined.

Lemma push_back_appends_to_own_partition_witness :
  NoDup [Int; Bool] /\ nth_error [Int; Bool] 1 = Some Bool
  /\ exists hv',
      push_back [Int; Bool] (scalars [7]%Z [true]) Bool false = Some hv'
      /\ part [Int; Bool] hv' 1
         = part [Int; Bool] (scalars [7]%Z [true]) 1 ++ [bool_ false]
      /\ (forall j, j <> 1 ->
             part [Int; Bool] hv' j
             = part [Int; Bool] (scalars [7]%Z [true]) j)
      /\ count [Int; Bool] hv'
         = count [Int; Bool] (scalars [7]%Z [true]) + 1
      /\ size [Int; Bool] hv'
         = size_t_add (size [Int; Bool] (scalars [7]%Z [true])) 1
      /\ ((Z.of_nat (count [Int; Bool] (scalars [7]%Z [true])) < SIZE_MAX)%Z ->
          size [Int; Bool] hv'
          = (size [Int; Bool] (scalars [7]%Z [true]) + 1)%Z).
Proof.
  split; [exact scalars_distinct|]. split; [reflexivity|].
  exact (push_back_appends_to_own_partition [Int; Bool]
           (scalars [7]%Z [true]) 1 Bool false scalars_distinct eq_refl).
Defined.

Lemma size_counts_insertions_witness :
  (forall e, In e [int_ 1; bool_ true; int_ 2] -> In (tag e) [Int; Bool])
  /\ (exists hv,
         push_back_all [Int; Bool] (hetvec_default scalar_value [Int; Bool])
                       [int_ 1; bool_ true; int_ 2] = Some hv
         /\ count [Int; Bool] hv = 3
         /\ size [Int; Bool] hv = (Z.of_nat 3 mod 2 ^ SIZE_WIDTH)%Z
         /\ ((Z.of_nat 3 <= SIZE_MAX)%Z -> size [Int; Bool] hv = Z.of_nat 3))
  /\ (forall hv : hetvec scalar_value [Int; Bool],
         size [Int; Bool] hv
         = (Z.of_nat (count [Int; Bool] hv) mod 2 ^ SIZE_WIDTH)%Z
         /\ ((Z.of_nat (count [Int; Bool] hv) <= SIZE_MAX)%Z ->
             size [Int; Bool] hv = Z.of_nat (count [Int; Bool] hv))
         /\ (0 <= size [Int; Bool] hv)%Z).
Proof.
  assert (H : forall e, In e [int_ 1; bool_ true; int_ 2] ->
                        In (tag e) [Int; Bool]).
  { intros e [<- | [<- | [<- | []]]]; simpl; auto. }
  split; [exact H|].
  exact (size_counts_insertions [Int; Bool] [int_ 1; bool_ true; int_ 2] H).
Defined.

Lemma construction_is_reversed_insertion_witness :
  NoDup [Int; Bool]
  /\ hetvec_ctor [Int; Bool] [int_ 1; int_ 2; bool_ true]
     = Some (scalars [2; 1]%Z [true])
  /\ (push_back_all [Int; Bool] (hetvec_default scalar_value [Int; Bool])
                    (rev [int_ 1; int_ 2; bool_ true])
      = Some (scalars [2; 1]%Z [true])
      /\ [int_ 1; int_ 2; bool_ true]
         = concat (map (@rev _) (parts [Int; Bool] (scalars [2; 1]%Z [true])))
      /\ (forall i Ti, nth_error [Int; Bool] i = Some Ti ->
             part [Int; Bool] (scalars [2; 1]%Z [true]) i
             = rev (filter (tag_is Ti) [int_ 1; int_ 2; bool_ true]))).
Proof.
  split; [exact scalars_distinct|]. split; [reflexivity|].
  exact (construction_is_reversed_insertion [Int; Bool]
           [int_ 1; int_ 2; bool_ true] (scalars [2; 1]%Z [true])
           scalars_distinct eq_refl).
Defined.

(** ** The further properties at the collections above *)

Lemma push_back_goes_to_first_match_witness :
  nth_error [Bool; Int; Int] 1 = Some Int
  /\ (forall k, k < 1 -> nth_error [Bool; Int; Int] k <> Some Int)
  /\ exists hv',
      push_back [Bool; Int; Int]
                (hetvec_default scalar_value [Bool; Int; Int]) Int 5%Z
      = Some hv'
      /\ parts [Bool; Int; Int] hv'
         = firstn 1 (parts [Bool; Int; Int]
                           (hetvec_default scalar_value [Bool; Int; Int]))
           ++ (part [Bool; Int; Int]
                    (hetvec_default scalar_value [Bool; Int; Int]) 1
               ++ [int_ 5])
              :: skipn 2 (parts [Bool; Int; Int]
                                (hetvec_default scalar_value [Bool; Int; Int]))
      /\ (forall j, j <> 1 ->
             part [Bool; Int; Int] hv' j
             = part [Bool; Int; Int]
                    (hetvec_default scalar_value [Bool; Int; Int]) j).
Proof.
  assert (H : forall k, k < 1 -> nth_error [Bool; Int; Int] k <> Some Int).
  { intros k Hk. assert (k = 0) by lia. subst k. discriminate. }
  split; [reflexivity|]. split; [exact H|].
  exact (push_back_goes_to_first_match [Bool; Int; Int]
           (hetvec_default scalar_value [Bool; Int; Int]) 1 Int 5%Z
           eq_refl H).
Defined.

Lemma push_back_all_stores_exactly_witness :
  push_back_all [Int; Bool] (scalars [7]%Z [true]) [bool_ false; int_ 8]
  = Some (scalars [7; 8]%Z [true; false])
  /\ (Permutation
        (elements [Int; Bool] (scalars [7; 8]%Z [true; false]))
        (elements [Int; Bool] (scalars [7]%Z [true])
         ++ [bool_ false; int_ 8])
      /\ (forall e,
             In e (elements [Int; Bool] (scalars [7; 8]%Z [true; false]))
             <-> In e (elements [Int; Bool] (scalars [7]%Z [true]))
                 \/ In e [bool_ false; int_ 8])
      /\ count [Int; Bool] (scalars [7; 8]%Z [true; false])
         = count [Int; Bool] (scalars [7]%Z [true])
           + length [bool_ false; int_ 8]).
Proof.
  split; [reflexivity|].
  exact (push_back_all_stores_exactly [Int; Bool] [bool_ false; int_ 8]
           (scalars [7]%Z [true]) (scalars [7; 8]%Z [true; false]) eq_refl).
Defined.


Lemma constructor_stores_exactly_witness :
  hetvec_ctor_args [Int; Bool] [Element (int_ 1); Empty_hetvec]
  = Some (scalars [1]%Z [])
  /\ (let es := argument_elements [Element (int_ 1); Empty_hetvec] in
      Permutation (elements [Int; Bool] (scalars [1]%Z [])) es
      /\ count [Int; Bool] (scalars [1]%Z []) = length es
      /\ size [Int; Bool] (scalars [1]%Z [])
         = (Z.of_nat (length es) mod 2 ^ SIZE_WIDTH)%Z
      /\ ([Element (int_ 1); Empty_hetvec] = map Element es
          \/ [Element (int_ 1); Empty_hetvec]
             = map Element es ++ [Empty_hetvec])
      /\ (length [Element (int_ 1); @Empty_hetvec _ scalar_value]
          = count [Int; Bool] (scalars [1]%Z [])
          \/ length [Element (int_ 1); @Empty_hetvec _ scalar_value]
             = count [Int; Bool] (scalars [1]%Z []) + 1)).
Proof.
  split; [reflexivity|].
  exact (constructor_stores_exactly [Int; Bool]
           [Element (int_ 1); Empty_hetvec] (scalars [1]%Z []) eq_refl).
Defined.

Lemma empty_iff_no_elements_witness :
  (Z.of_nat (count [Int; Bool] (scalars [7]%Z [true])) <= SIZE_MAX)%Z
  /\ ((empty Int [Bool] (scalars [7]%Z [true]) = true
       <-> elements [Int; Bool] (scalars [7]%Z [true]) = [])
      /\ (empty Int [Bool] (scalars [7]%Z [true]) = true
          <-> forall i, part [Int; Bool] (scalars [7]%Z [true]) i = [])
      /\ (empty Int [Bool] (scalars [7]%Z [true]) = true ->
          invocations [Int; Bool] (scalars [7]%Z [true]) = [])).
Proof.
  assert (H : (Z.of_nat (count [Int; Bool] (scalars [7]%Z [true]))
               <= SIZE_MAX)%Z)
    by (vm_compute; discriminate).
  split; [exact H|].
  exact (empty_iff_no_elements Int [Bool] (scalars [7]%Z [true]) H).
Defined.

Lemma invocation_count_witness :
  NoDup Types
  /\ length (invocations Types example_hv)
     + list_sum (map (fun p => choose2 (length p)) (parts Types example_hv))
     = count Types example_hv * (count Types example_hv - 1).
Proof.
  split; [exact Types_distinct|].
  exact (invocation_count Types example_hv Types_distinct).
Defined.

Lemma traversal_as_multiset_witness :
  NoDup [Int; Bool]
  /\ (Permutation
        (invocations [Int; Bool] (scalars [1; 2]%Z [true; false]))
        (flat_map (fun p => ordered_pairs (map subscripted p))
                  (parts [Int; Bool] (scalars [1; 2]%Z [true; false]))
         ++ filter cross_typed
              (list_prod
                 (elements [Int; Bool] (scalars [1; 2]%Z [true; false]))
                 (elements [Int; Bool] (scalars [1; 2]%Z [true; false]))))
      /\ filter (fun c => negb (cross_typed c))
                (invocations [Int; Bool] (scalars [1; 2]%Z [true; false]))
         = flat_map (fun p => ordered_pairs (map subscripted p))
                    (parts [Int; Bool] (scalars [1; 2]%Z [true; false]))).
Proof.
  split; [exact scalars_distinct|].
  exact (traversal_as_multiset [Int; Bool] (scalars [1; 2]%Z [true; false])
           scalars_distinct).
Defined.

Lemma invocation_arguments_are_stored_witness :
  In (bool_reference_ true, bool_reference_ false)
     (invocations [Int; Bool] (scalars [7]%Z [true; false]))
  /\ exists a b : elem scalar_value,
      In a (elements [Int; Bool] (scalars [7]%Z [true; false]))
      /\ In b (elements [Int; Bool] (scalars [7]%Z [true; false]))
      /\ In (tag a) [Int; Bool] /\ In (tag b) [Int; Bool]
      /\ ((bool_reference_ true, bool_reference_ false) = (a, b)
          \/ (tag a = tag b
              /\ (bool_reference_ true, bool_reference_ false)
                 = (subscripted a, subscripted b)))
      /\ (NoDup (elements [Int; Bool] (scalars [7]%Z [true; false])) ->
          a <> b).
Proof.
  assert (H : In (bool_reference_ true, bool_reference_ false)
                 (invocations [Int; Bool] (scalars [7]%Z [true; false])))
    by (do 4 right; left; reflexivity).
  split; [exact H|].
  exact (invocation_arguments_are_stored [Int; Bool]
           (scalars [7]%Z [true; false])
           (bool_reference_ true, bool_reference_ false) H).
Defined.

Lemma storage_order_invariance_witness :
  Forall2 (@Permutation (elem scalar_value))
          (parts [Int; Bool] (scalars [1; 2]%Z [true]))
          (parts [Int; Bool] (scalars [2; 1]%Z [true]))
  /\ (Permutation
        (filter cross_typed
                (invocations [Int; Bool] (scalars [1; 2]%Z [true])))
        (filter cross_typed
                (invocations [Int; Bool] (scalars [2; 1]%Z [true])))
      /\ length (invocations [Int; Bool] (scalars [1; 2]%Z [true]))
         = length (invocations [Int; Bool] (scalars [2; 1]%Z [true]))).
Proof.
  assert (H : Forall2 (@Permutation (elem scalar_value))
                      (parts [Int; Bool] (scalars [1; 2]%Z [true]))
                      (parts [Int; Bool] (scalars [2; 1]%Z [true]))).
  { constructor; [apply perm_swap|].
    constructor; [apply Permutation_refl | constructor]. }
  split; [exact H|].
  exact (storage_order_invariance [Int; Bool] (scalars [1; 2]%Z [true])
           (scalars [2; 1]%Z [true]) H).
Defined.

Lemma push_back_adds_pairs_with_new_element_witness :
  NoDup [Int; Bool]
  /\ push_back [Int; Bool] (scalars [7]%Z [true]) Bool false
     = Some (scalars [7]%Z [true; false])
  /\ Permutation
       (invocations [Int; Bool] (scalars [7]%Z [true; false]))
       (invocations [Int; Bool] (scalars [7]%Z [true])
        ++ flat_map (fun e => calls_between e (existT scalar_value Bool false))
                    (elements [Int; Bool] (scalars [7]%Z [true]))).
Proof.
  split; [exact scalars_distinct|]. split; [reflexivity|].
  exact (push_back_adds_pairs_with_new_element [Int; Bool]
           (scalars [7]%Z [true]) (scalars [7]%Z [true; false]) Bool false
           scalars_distinct eq_refl).
Defined.

Lemma scalar_plain_subscript_Int : plain_subscript Int.
Proof. split; [reflexivity | intros x; reflexivity]. Defined.

Lemma same_type_pairs_on_subscripts_witness :
  (NoDup [Int; Bool] /\ nth_error [Int; Bool] 1 = Some Bool
   /\ (forall T, In T [Int; Bool] ->
          subscript_ty T = subscript_ty Bool -> T = Bool)
   /\ (let Pi := part [Int; Bool] (scalars [7]%Z [true; false]) 1 in
       let Si := subscript_ty Bool in
       let calls_ii :=
         filter (typed Si Si)
                (invocations [Int; Bool] (scalars [7]%Z [true; false])) in
       calls_ii = ordered_pairs (map subscripted Pi)
       /\ length calls_ii = choose2 (length Pi)
       /\ (forall a b : elem scalar_value,
              In (a, b) calls_ii
              <-> exists p q x y, p < q /\ nth_error Pi p = Some x
                                  /\ nth_error Pi q = Some y
                                  /\ a = subscripted x /\ b = subscripted y)
       /\ (plain_subscript Bool ->
           filter (typed Bool Bool)
                  (invocations [Int; Bool] (scalars [7]%Z [true; false]))
           = ordered_pairs Pi
           /\ (NoDup Pi ->
               NoDup calls_ii
               /\ forall a b : elem scalar_value,
                    In (a, b) calls_ii -> ~ In (b, a) calls_ii))))
  /\ (nth_error [Int; Bool] 0 = Some Int
      /\ (forall T, In T [Int; Bool] ->
             subscript_ty T = subscript_ty Int -> T = Int)
      /\ plain_subscript Int
      /\ filter (typed Int Int)
                (invocations [Int; Bool] (scalars [1; 2]%Z [true]))
         = ordered_pairs (part [Int; Bool] (scalars [1; 2]%Z [true]) 0)).
Proof.
  assert (HB : forall T, In T [Int; Bool] ->
                         subscript_ty T = subscript_ty Bool -> T = Bool).
  { intros T [<- | [<- | []]] E; [discriminate E | reflexivity]. }
  assert (HI : forall T, In T [Int; Bool] ->
                         subscript_ty T = subscript_ty Int -> T = Int).
  { intros T [<- | [<- | []]] E; [reflexivity | discriminate E]. }
  split.
  - split; [exact scalars_distinct|]. split; [reflexivity|].
    split; [exact HB|].
    exact (same_type_pairs_on_subscripts [Int; Bool]
             (scalars [7]%Z [true; false]) 1 Bool scalars_distinct eq_refl HB).
  - split; [reflexivity|]. split; [exact HI|].
    split; [exact scalar_plain_subscript_Int|].
    exact (proj1 (proj2 (proj2 (proj2
             (same_type_pairs_on_subscripts [Int; Bool]
                (scalars [1; 2]%Z [true]) 0 Int scalars_distinct eq_refl HI)))
             scalar_plain_subscript_Int)).
Defined.
